(** * Window resizer: cycling window sizes, centring, and the size notification

    A shallow embedding of [src/extension.js].  The handlers
    [_cycleWindowSizes], [_centerWindow] and [_notifySizeChange] are
    translated line by line.  Host objects are modelled by what the handlers
    read from them (records of observations) and by the list of calls the
    handlers issue to them (a log), in the order of the source.

    Numbers.  Every quantity the handlers read is a host integer (rectangle
    fields, the scale factor, the maximize flags); sums, differences,
    products, absolute values and halves of such integers are exact in the
    binary64 arithmetic of the language, so they are modelled in [Z] (and [Q]
    for the halves).  The ratio test of the notification divides two
    arbitrary integers, which is not exact: that part is modelled with the
    binary64 numbers of [PrimFloat]. *)

From Stdlib Require Import ZArith List Bool Lia QArith Qabs Uint63 PrimFloat.
From Stdlib Require Import Qround Lqa.
From Stdlib Require String.
Import String.StringSyntax.
Delimit Scope string_scope with string.
Import ListNotations.
Local Open Scope Z_scope.

(** ** The fragments of the language semantics the handlers rely on *)

Module JS.

(** A number used as an array index: an integer, or NaN. *)
Inductive num : Type :=
| Int (z : Z)
| NaN.

(** [a + k] where [a] may be [undefined]: [undefined + k] is NaN. *)
Definition add (a : option Z) (k : Z) : num :=
  match a with
  | Some i => Int (i + k)
  | None => NaN
  end.

(** [a % b]: the remainder takes the sign of the dividend, and is NaN when
    the divisor is zero or the dividend is NaN.  (A negative zero result
    is the integer 0 once used as an index.) *)
Definition rem (a : num) (b : Z) : num :=
  match a with
  | Int i => if b =? 0 then NaN else Int (Z.rem i b)
  | NaN => NaN
  end.

Definition ToIntegerOrInfinity (n : num) : Z :=
  match n with
  | Int i => i
  | NaN => 0
  end.

(** [Array.prototype.at]: a negative index counts from the end; an index
    out of range yields [undefined]. *)
Definition at_ {A : Type} (l : list A) (index : num) : option A :=
  let len := Z.of_nat (length l) in
  let relativeIndex := ToIntegerOrInfinity index in
  let k := if 0 <=? relativeIndex then relativeIndex else len + relativeIndex in
  if (k <? 0) || (len <=? k) then None else nth_error l (Z.to_nat k).

(** Exceptions the handlers can raise. *)
Inductive exn : Type :=
| TypeError.

End JS.

(** ** Data *)

Record Rect : Type := mkRect { x : Z; y : Z; width : Z; height : Z }.

(** A size is the two-element array [[w, h]]. *)
Definition Size : Type := (Z * Z)%type.

Record Extension : Type := { SIZES : list Size }.

(** The extension object of the source. *)
Definition this : Extension :=
  {| SIZES := [(1280, 720); (1280, 900); (1440, 900); (1600, 900)] |}.

(** What a handler reads from the window, each field being the answer the
    host gives at the place the handler asks (the frame rectangle is read
    after the unmaximize request). *)
Record Window : Type := {
  get_maximized : Z;
  get_work_area_current_monitor : Rect;
  get_frame_rect : Rect
}.

Record KeyBinding : Type := { is_reversed : bool }.

(** [Meta.MaximizeFlags.BOTH]. *)
Definition BOTH : Z := 3.

(** ** Calls to the host, and the monad that logs them *)

Inductive HostCall : Type :=
| unmaximize (flags : Z)
| connect_size_changed
| move_resize_frame (user_op : bool) (newX newY : Q) (newWidth newHeight : Z).

(** A computation issues calls and then returns or throws. *)
Definition M (A : Type) : Type := (list HostCall * (JS.exn + A))%type.

Definition ret {A : Type} (a : A) : M A := ([], inr a).

Definition bind {A B : Type} (m : M A) (k : A -> M B) : M B :=
  match m with
  | (cs, inl e) => (cs, inl e)
  | (cs, inr a) => let '(cs', r) := k a in (cs ++ cs', r)
  end.

Definition call (c : HostCall) : M unit := ([c], inr tt).

Definition throw {A : Type} (e : JS.exn) : M A := ([], inl e).

Notation "x <- m ;; k" := (bind m (fun x => k))
  (at level 61, m at next level, right associativity).
Notation "m ;;; k" := (bind m (fun _ => k))
  (at level 61, right associativity).

Definition calls {A : Type} (m : M A) : list HostCall := fst m.
Definition outcome {A : Type} (m : M A) : JS.exn + A := snd m.

(** [let [a, b] = v]: destructuring [undefined] throws. *)
Definition destructure (v : option Size) : M Size :=
  match v with
  | Some s => ret s
  | None => throw JS.TypeError
  end.

(** ** [_cycleWindowSizes] *)

(** Lines 81-82: scale every size, keep those that fit the work area. *)
Definition scaledSizes (self : Extension) (scaleFactor : Z) (workArea : Rect)
  : list Size :=
  filter (fun '(w, h) => (w <=? width workArea) && (h <=? height workArea))
         (map (fun '(w, h) => (w * scaleFactor, h * scaleFactor)) (SIZES self)).

(** Line 92. *)
Definition error (outerRect : Rect) (size : Size) : Z :=
  let '(width_, height_) := size in
  Z.abs (width_ - width outerRect) + Z.abs (height_ - height outerRect).

(** The two variables of the search loop; [None] is [undefined]. *)
Record Nearest : Type := {
  nearestIndex : option Z;
  nearestError : option Z
}.

Definition is_undefined {A : Type} (v : option A) : bool :=
  match v with
  | None => true
  | Some _ => false
  end.

(** [error < nearestError]: a comparison with [undefined] is false. *)
Definition lt_num (e : Z) (v : option Z) : bool :=
  match v with
  | Some n => e <? n
  | None => false
  end.

(** Lines 89-96: the body of the loop at index [i]. *)
Definition visit (outerRect : Rect) (st : Nearest) (i : Z) (size : Size)
  : Nearest :=
  let e := error outerRect size in
  if is_undefined (nearestIndex st) || lt_num e (nearestError st)
  then {| nearestIndex := Some i; nearestError := Some e |}
  else st.

(** Lines 88-97: the loop, from index [i] over the remaining elements. *)
Fixpoint scan (outerRect : Rect) (rest : list Size) (i : Z) (st : Nearest)
  : Nearest :=
  match rest with
  | [] => st
  | size :: rest' => scan outerRect rest' (i + 1) (visit outerRect st i size)
  end.

Definition findNearest (outerRect : Rect) (sizes : list Size) : Nearest :=
  scan outerRect sizes 0 {| nearestIndex := None; nearestError := None |}.

(** Line 100. *)
Definition newIndex (nearest : option Z) (backwards : bool) (len : Z) : JS.num :=
  JS.rem (JS.add nearest (if backwards then -1 else 1)) len.

(** Lines 100-101: the element the advance selects. *)
Definition selectSize (sizes : list Size) (nearest : option Z) (backwards : bool)
  : option Size :=
  JS.at_ sizes (newIndex nearest backwards (Z.of_nat (length sizes))).

(** Lines 104-109. *)
Definition pushOnscreen (outerRect workArea : Rect) (newWidth newHeight : Z)
  : Z * Z :=
  let newX := x outerRect in
  let newY := y outerRect in
  let newX :=
    if newX + newWidth >? x workArea + width workArea
    then Z.max (x workArea) (x workArea + width workArea - newWidth)
    else newX in
  let newY :=
    if newY + newHeight >? y workArea + height workArea
    then Z.max (y workArea) (y workArea + height workArea - newHeight)
    else newY in
  (newX, newY).

(** Lines 69-116.  [scale_factor] is the scale factor of the theme context. *)
Definition _cycleWindowSizes (self : Extension) (scale_factor : Z)
    (window : Window) (binding : KeyBinding) : M unit :=
  let backwards := is_reversed binding in
  (if negb (get_maximized window =? 0) then call (unmaximize BOTH) else ret tt) ;;;
  let workArea := get_work_area_current_monitor window in
  let outerRect := get_frame_rect window in
  let scaleFactor := scale_factor in
  let sizes := scaledSizes self scaleFactor workArea in
  let nearest := nearestIndex (findNearest outerRect sizes) in
  size <- destructure (selectSize sizes nearest backwards) ;;
  let '(newWidth, newHeight) := size in
  let '(newX, newY) := pushOnscreen outerRect workArea newWidth newHeight in
  call connect_size_changed ;;;
  call (move_resize_frame true (inject_Z newX) (inject_Z newY) newWidth newHeight).

(** ** [_centerWindow] *)

(** Lines 144-161. *)
Definition _centerWindow (window : Window) : M unit :=
  (if negb (get_maximized window =? 0) then call (unmaximize BOTH) else ret tt) ;;;
  let workArea := get_work_area_current_monitor window in
  let outerRect := get_frame_rect window in
  let newX :=
    (inject_Z (x workArea)
     + inject_Z (width workArea - width outerRect) / inject_Z 2)%Q in
  let newY :=
    (inject_Z (y workArea)
     + inject_Z (height workArea - height outerRect) / inject_Z 2)%Q in
  call connect_size_changed ;;;
  call (move_resize_frame true newX newY (width outerRect) (height outerRect)).

(** ** [_notifySizeChange] *)

(** The binary64 number of a host integer. *)
Definition Number (z : Z) : float :=
  if z <? 0
  then PrimFloat.opp (PrimFloat.of_uint63 (Uint63.of_Z (- z)))
  else PrimFloat.of_uint63 (Uint63.of_Z z).

(** The message is kept as the format directives applied and the numbers
    handed to them; rendering them as text is the host's [format]. *)
Inductive Piece : Type :=
| size_d_x_d (w h : float)      (* '%d×%d'.format(w, h) *)
| ratio_2f_9 (n : float).       (* ' (%.2f:9)'.format(n) *)

(** The binary64 number nearest to the literal 0.01. *)
Definition lit_0_01 : float := 0x1.47ae147ae147bp-7%float.

(** Line 131. *)
Definition actualNumerator (newOuterRect : Rect) : float :=
  ((9 * Number (width newOuterRect)) / Number (height newOuterRect))%float.

(** Line 132. *)
Definition ratioDiffers (newOuterRect : Rect) : bool :=
  PrimFloat.ltb lit_0_01 (PrimFloat.abs (actualNumerator newOuterRect - 16))%float.

(** Lines 121-136; the result is the message passed to [_flashMessage]. *)
Definition _notifySizeChange (scaleFactor : Z) (window : Window) : list Piece :=
  let newOuterRect := get_frame_rect window in
  let message :=
    [size_d_x_d (Number (width newOuterRect) / Number scaleFactor)%float
                (Number (height newOuterRect) / Number scaleFactor)%float] in
  let actualNumerator := actualNumerator newOuterRect in
  if ratioDiffers newOuterRect
  then message ++ [ratio_2f_9 actualNumerator]
  else message.

(** ** Definitions used to state the properties *)

(** What the loop has established once the elements of [seen] are visited. *)
Definition scanned (outerRect : Rect) (seen : list Size) (st : Nearest)
  : Prop :=
  match seen with
  | [] => st = {| nearestIndex := None; nearestError := None |}
  | _ :: _ =>
      exists (i : nat) (s : Size),
        st = {| nearestIndex := Some (Z.of_nat i);
                nearestError := Some (error outerRect s) |}
        /\ nth_error seen i = Some s
        /\ (forall j s', nth_error seen j = Some s' ->
                         error outerRect s <= error outerRect s')
        /\ (forall j s', (j < i)%nat -> nth_error seen j = Some s' ->
                         error outerRect s < error outerRect s')
  end.

(** The step added to the nearest index. *)
Definition step (backwards : bool) : Z := if backwards then -1 else 1.

(** The calls of the "Unmaximize first" step. *)
Definition unmaximizeFirst (window : Window) : list HostCall :=
  if get_maximized window =? 0 then [] else [unmaximize BOTH].

(** A frame of a given size at the origin. *)
Definition frame (w h : Z) : Rect := mkRect 0 0 w h.

(** A window on a 2000x1200 work area, as in the scenarios of the
    specification. *)
Definition workArea_2000_1200 : Rect := mkRect 0 0 2000 1200.

Definition windowAt (maximized : Z) (workArea outerRect : Rect) : Window :=
  {| get_maximized := maximized;
     get_work_area_current_monitor := workArea;
     get_frame_rect := outerRect |}.

Definition forward : KeyBinding := {| is_reversed := false |}.
Definition backward : KeyBinding := {| is_reversed := true |}.



(** The test of line 132 as the specification words it, over the rationals:
    |9 * width / height - 16| > 0.01. *)
Definition spec_ratioDiffers (newOuterRect : Rect) : Prop :=
  (1 # 100
   < Qabs (9 * inject_Z (width newOuterRect) / inject_Z (height newOuterRect)
           - 16))%Q.

(** The width offsets, around 16 * h / 9, that cover every width whose ratio
    lies within 0.01 of 16 at a height of at most 4320. *)
Definition bandOffsets : list Z := [-5; -4; -3; -2; -1; 0; 1; 2; 3; 4; 5].

(** [100 * |9 w - 16 h| < h]: the ratio lies strictly within 0.01 of 16. *)
Definition withinTolerance (w h : Z) : bool :=
  100 * Z.abs (9 * w - 16 * h) <? h.

(** At height [h], no width of the band within tolerance gets the suffix. *)
Definition bandQuiet (h : Z) : bool :=
  forallb (fun e => let w := 16 * h / 9 + e in
                    negb (withinTolerance w h) || negb (ratioDiffers (frame w h)))
          bandOffsets.

Fixpoint heightsQuiet (n : nat) : bool :=
  match n with
  | O => true
  | S k => bandQuiet (Z.of_nat n) && heightsQuiet k
  end.

(** ** [_flashMessage] and [_hideMessage] *)

Definition MESSAGE_FADE_TIME : Z := 2000.

(** The properties the handlers assign on the label held in [this._text]. *)
Record Label : Type := { text : list Piece; opacity : Z }.

(** What [_flashMessage] reads from the host: the primary monitor, and the
    width and height the label has once it shows a given message. *)
Record Stage : Type := {
  primaryMonitor : Rect;
  label_width : list Piece -> Q;
  label_height : list Piece -> Q
}.

(** The method calls on the label and on the UI group. *)
Inductive UICall : Type :=
| new_Label
| add_child
| remove_all_transitions
| set_position (px py : Z)
| ease (opacity_ duration : Z)
| destroy.

(** Lines 34-56.  The result is the calls issued and the new value of
    [this._text]. *)
Definition _flashMessage (stage : Stage) (_text : option Label)
    (message : list Piece) : list UICall * option Label :=
  let created :=
    match _text with
    | None => [new_Label; add_child]
    | Some _ => []
    end in
  let label := {| text := message; opacity := 255 |} in
  let monitor := primaryMonitor stage in
  (created
   ++ [remove_all_transitions;
       set_position
         (x monitor
          + Qfloor (inject_Z (width monitor) / 2
                    - label_width stage message / 2)%Q)
         (y monitor
          + Qfloor (inject_Z (height monitor) / 2
                    - label_height stage message / 2)%Q);
       ease 0 MESSAGE_FADE_TIME],
   Some label).

(** Lines 58-61: calling [destroy] on [undefined] throws. *)
Definition _hideMessage (_text : option Label)
  : list UICall * (JS.exn + option Label) :=
  match _text with
  | Some _ => ([destroy], inr None)
  | None => ([], inl JS.TypeError)
  end.

(** What happens to the label over time: a message is flashed, or a fade
    runs to its end and its [onComplete] calls [_hideMessage]. *)
Inductive UIOp : Type :=
| Flash (message : list Piece)
| FadeComplete.

(** A history of operations, run until one throws. *)
Fixpoint runUI (stage : Stage) (ops : list UIOp) (_text : option Label)
  : list UICall * (JS.exn + option Label) :=
  match ops with
  | [] => ([], inr _text)
  | Flash message :: rest =>
      let '(cs, t) := _flashMessage stage _text message in
      let '(cs', r) := runUI stage rest t in
      (cs ++ cs', r)
  | FadeComplete :: rest =>
      match _hideMessage _text with
      | (cs, inr t) => let '(cs', r) := runUI stage rest t in (cs ++ cs', r)
      | (cs, inl e) => (cs, inl e)
      end
  end.

Definition isLive (_text : option Label) : bool :=
  match _text with
  | Some _ => true
  | None => false
  end.

(** Every fade that completes has a label to hide. *)
Fixpoint fadesHaveLabel (live : bool) (ops : list UIOp) : bool :=
  match ops with
  | [] => true
  | Flash _ :: rest => fadesHaveLabel true rest
  | FadeComplete :: rest => live && fadesHaveLabel false rest
  end.

Definition countCalls (p : UICall -> bool) (cs : list UICall) : Z :=
  Z.of_nat (length (filter p cs)).

Definition isNew (c : UICall) : bool :=
  match c with new_Label => true | _ => false end.
Definition isAdd (c : UICall) : bool :=
  match c with add_child => true | _ => false end.
Definition isDestroy (c : UICall) : bool :=
  match c with destroy => true | _ => false end.

(** The label of the final state, [None] also when the run threw. *)
Definition finalLabel (r : JS.exn + option Label) : option Label :=
  match r with
  | inr t => t
  | inl _ => None
  end.

(** ** [enable] and [disable] *)

(** The host constants the source names: [Meta.KeyBindingFlags.PER_WINDOW],
    [Meta.KeyBindingFlags.IS_REVERSED] and [Shell.ActionMode.NORMAL]. *)
Record HostConsts : Type := { PER_WINDOW : Z; IS_REVERSED : Z; NORMAL : Z }.

(** [this._cycleWindowSizes.bind(this)] and [this._centerWindow.bind(this)]. *)
Inductive Handler : Type :=
| bound_cycleWindowSizes
| bound_centerWindow.

Inductive WMCall : Type :=
| addKeybinding (name : String.string) (flags modes : Z) (handler : Handler)
| removeKeybinding (name : String.string).

(** [ToInt32] of an integer: its value modulo 2^32, read as a signed 32-bit
    number. *)
Definition ToInt32 (z : Z) : Z := (z + 2 ^ 31) mod 2 ^ 32 - 2 ^ 31.

(** [a | b]: both operands are taken to signed 32-bit integers, and the
    result is the signed 32-bit integer with the bits of either. *)
Definition bitwiseOr (a b : Z) : Z := Z.lor (ToInt32 a) (ToInt32 b).

(** Lines 164-183.  (The settings object passed along is the extension's
    own and plays no part here.) *)
Definition enable (K : HostConsts) : list WMCall :=
  [addKeybinding "cycle-window-sizes"%string (PER_WINDOW K) (NORMAL K)
                 bound_cycleWindowSizes;
   addKeybinding "cycle-window-sizes-backward"%string
                 (bitwiseOr (PER_WINDOW K) (IS_REVERSED K)) (NORMAL K)
                 bound_cycleWindowSizes;
   addKeybinding "center-window"%string (PER_WINDOW K) (NORMAL K)
                 bound_centerWindow].

(** Lines 185-189. *)
Definition disable : list WMCall :=
  [removeKeybinding "cycle-window-sizes"%string;
   removeKeybinding "cycle-window-sizes-backward"%string;
   removeKeybinding "center-window"%string].

(** The names the extension uses. *)
Definition ownNames : list String.string :=
  ["cycle-window-sizes"; "cycle-window-sizes-backward"; "center-window"]%string.

(** The handler [enable] registers under each of its names. *)
Definition ownHandler (k : String.string) : Handler :=
  if String.eqb k "center-window"%string then bound_centerWindow
  else bound_cycleWindowSizes.

(** A model of the host's table of key bindings: adding a name that is
    already bound is refused, removing deletes the name. *)
Record Binding : Type := { flags_ : Z; modes_ : Z; handler_ : Handler }.

Definition Registry : Type := String.string -> option Binding.

Definition applyWM (r : Registry) (c : WMCall) : Registry :=
  match c with
  | addKeybinding name flags modes handler =>
      match r name with
      | Some _ => r
      | None =>
          fun k =>
            if String.eqb k name
            then Some {| flags_ := flags; modes_ := modes; handler_ := handler |}
            else r k
      end
  | removeKeybinding name =>
      fun k => if String.eqb k name then None else r k
  end.

Definition runWM (r : Registry) (cs : list WMCall) : Registry :=
  fold_left applyWM cs r.

(** ** Further definitions used to state properties *)

(** The size of the frame a handler asked for last, if it asked for one. *)
Definition requestedSize (m : M unit) : option Size :=
  match last (calls m) connect_size_changed with
  | move_resize_frame _ _ _ newWidth newHeight => Some (newWidth, newHeight)
  | _ => None
  end.

(** The position of the frame a handler asked for last. *)
Definition requestedPosition (m : M unit) : option (Q * Q) :=
  match last (calls m) connect_size_changed with
  | move_resize_frame _ newX newY _ _ => Some (newX, newY)
  | _ => None
  end.

(** A run of key presses: [ws 0] is the window at the start and [ws (S t)]
    the window after the host has applied press [t].  Up to press [k] the
    work area stays the same and the host gives the window the size each
    press requested. *)
Definition granted (self : Extension) (scale_factor : Z) (binding : KeyBinding)
    (ws : nat -> Window) (k : nat) : Prop :=
  forall t, (t < k)%nat ->
    get_work_area_current_monitor (ws (S t))
    = get_work_area_current_monitor (ws 0%nat)
    /\ requestedSize (_cycleWindowSizes self scale_factor (ws t) binding)
       = Some (width (get_frame_rect (ws (S t))),
               height (get_frame_rect (ws (S t)))).

(** Four forward presses on the four sizes of the source. *)
Definition fourPresses (t : nat) : Window :=
  windowAt 0 workArea_2000_1200
    match t with
    | 0%nat => mkRect 40 40 1280 720
    | 1%nat => mkRect 40 40 1280 900
    | 2%nat => mkRect 40 40 1440 900
    | _ => mkRect 40 40 1600 900
    end.







(** ** The nearest-match loop *)

Section NearestSearch.

Variable outerRect : Rect.

Lemma nth_error_snoc {A : Type} (l : list A) (a : A) (j : nat) (b : A) :
  nth_error (l ++ [a]) j = Some b ->
  nth_error l j = Some b /\ (j < length l)%nat \/ j = length l /\ b = a.
Proof.
  intros H.
  destruct (Nat.lt_ge_cases j (length l)) as [Hlt | Hge].
  - left. rewrite nth_error_app1 in H by exact Hlt. auto.
  - right. rewrite nth_error_app2 in H by exact Hge.
    destruct (j - length l)%nat as [| k] eqn:E; simpl in H.
    + injection H as <-. split; [lia | reflexivity].
    + destruct k; discriminate.
Qed.

Lemma scanned_intro (seen : list Size) (i : nat) (s : Size) :
  nth_error seen i = Some s ->
  (forall j s', nth_error seen j = Some s' ->
                error outerRect s <= error outerRect s') ->
  (forall j s', (j < i)%nat -> nth_error seen j = Some s' ->
                error outerRect s < error outerRect s') ->
  scanned outerRect seen {| nearestIndex := Some (Z.of_nat i);
                  nearestError := Some (error outerRect s) |}.
Proof.
  intros Hi Hmin Hfirst. destruct seen as [| s0 seen0].
  - destruct i; discriminate.
  - exists i, s. auto.
Qed.

Lemma visit_scanned (seen : list Size) (st : Nearest) (size : Size) :
  scanned outerRect seen st ->
  scanned outerRect (seen ++ [size]) (visit outerRect st (Z.of_nat (length seen)) size).
Proof.
  intros H. destruct seen as [| s0 seen0].
  - simpl in H. subst st. unfold visit. simpl orb. cbv iota.
    apply scanned_intro.
    + reflexivity.
    + intros [| j] s' E; simpl in E.
      * injection E as <-. lia.
      * destruct j; discriminate.
    + intros j s' Hj. simpl in Hj. lia.
  - destruct H as (i & s & -> & Hi & Hmin & Hfirst).
    remember (s0 :: seen0) as seen eqn:Hseen.
    assert (Hlen : (i < length seen)%nat) by (apply nth_error_Some; congruence).
    unfold visit; simpl.
    destruct (error outerRect size <? error outerRect s) eqn:E.
    + apply Z.ltb_lt in E. apply scanned_intro.
      * rewrite nth_error_app2 by lia. rewrite Nat.sub_diag. reflexivity.
      * intros j s' Hj. apply nth_error_snoc in Hj as [[Hj _] | [_ ->]].
        -- specialize (Hmin j s' Hj). lia.
        -- lia.
      * intros j s' Hlt Hj. apply nth_error_snoc in Hj as [[Hj _] | [-> _]].
        -- specialize (Hmin j s' Hj). lia.
        -- lia.
    + apply Z.ltb_ge in E. apply scanned_intro.
      * rewrite nth_error_app1 by exact Hlen. exact Hi.
      * intros j s' Hj. apply nth_error_snoc in Hj as [[Hj _] | [_ ->]].
        -- exact (Hmin j s' Hj).
        -- exact E.
      * intros j s' Hlt Hj. apply nth_error_snoc in Hj as [[Hj _] | [-> _]].
        -- exact (Hfirst j s' Hlt Hj).
        -- lia.
Qed.

Lemma scan_scanned (rest seen : list Size) (st : Nearest) :
  scanned outerRect seen st ->
  scanned outerRect (seen ++ rest) (scan outerRect rest (Z.of_nat (length seen)) st).
Proof.
  revert seen st. induction rest as [| size rest IH]; intros seen st H.
  - rewrite app_nil_r. exact H.
  - simpl.
    replace (seen ++ size :: rest) with ((seen ++ [size]) ++ rest)
      by (rewrite <- app_assoc; reflexivity).
    replace (Z.of_nat (length seen) + 1) with (Z.of_nat (length (seen ++ [size])))
      by (rewrite length_app; simpl; lia).
    apply IH. apply visit_scanned. exact H.
Qed.

Lemma findNearest_scanned (sizes : list Size) :
  scanned outerRect sizes (findNearest outerRect sizes).
Proof.
  exact (scan_scanned sizes [] _ eq_refl).
Qed.

(** On a non-empty list the loop ends with the first index of least error. *)
Lemma findNearest_spec (sizes : list Size) :
  sizes <> [] ->
  exists (i : nat) (s : Size),
    nearestIndex (findNearest outerRect sizes) = Some (Z.of_nat i)
    /\ nth_error sizes i = Some s
    /\ (forall j s', nth_error sizes j = Some s' ->
                     error outerRect s <= error outerRect s')
    /\ (forall j s', (j < i)%nat -> nth_error sizes j = Some s' ->
                     error outerRect s < error outerRect s').
Proof.
  intros Hne. pose proof (findNearest_scanned sizes) as H.
  destruct sizes as [| s0 sizes0]; [congruence |].
  destruct H as (i & s & -> & Hi & Hmin & Hfirst).
  exists i, s. simpl. auto.
Qed.

End NearestSearch.

(** ** The cyclic advance *)

Lemma at_mod {A : Type} (l : list A) (r : Z) :
  - Z.of_nat (length l) <= r < Z.of_nat (length l) ->
  JS.at_ l (JS.Int r) = nth_error l (Z.to_nat (r mod Z.of_nat (length l))).
Proof.
  intros Hr. unfold JS.at_, JS.ToIntegerOrInfinity.
  set (n := Z.of_nat (length l)) in *.
  destruct (0 <=? r) eqn:E0.
  - apply Z.leb_le in E0. rewrite Z.mod_small by lia.
    destruct (r <? 0) eqn:E1; [apply Z.ltb_lt in E1; lia |].
    destruct (n <=? r) eqn:E2; [apply Z.leb_le in E2; lia |].
    reflexivity.
  - apply Z.leb_gt in E0.
    assert (Hm : r mod n = n + r)
      by (symmetry; apply (Z.mod_unique_pos r n (-1) (n + r)); lia).
    rewrite Hm.
    destruct (n + r <? 0) eqn:E1; [apply Z.ltb_lt in E1; lia |].
    destruct (n <=? n + r) eqn:E2; [apply Z.leb_le in E2; lia |].
    reflexivity.
Qed.

(** The truncated remainder of the advanced index, read as an index by
    [at], is the non-negative residue. *)
Lemma rem_step (n i : Z) (backwards : bool) :
  0 <= i < n ->
  - n <= Z.rem (i + step backwards) n < n
  /\ Z.rem (i + step backwards) n mod n = (i + step backwards) mod n.
Proof.
  intros Hi.
  destruct (Z.le_gt_cases 0 (i + step backwards)) as [Hnn | Hneg].
  - rewrite Z.rem_mod_nonneg by lia. rewrite Z.mod_mod by lia.
    pose proof (Z.mod_pos_bound (i + step backwards) n). lia.
  - assert (Hs : i + step backwards = -1)
      by (destruct backwards; unfold step in *; lia).
    rewrite Hs.
    assert (Hr : Z.rem (-1) n = - (1 mod n)).
    { change (-1) with (- (1)). rewrite Z.rem_opp_l by lia.
      rewrite Z.rem_mod_nonneg by lia. reflexivity. }
    rewrite Hr. destruct (Z.eq_dec n 1) as [-> | Hn1].
    + split; [simpl; lia | reflexivity].
    + rewrite (Z.mod_small 1 n) by lia. split; [lia | reflexivity].
Qed.

Lemma selectSize_mod (sizes : list Size) (i : Z) (backwards : bool) :
  0 <= i < Z.of_nat (length sizes) ->
  selectSize sizes (Some i) backwards
  = nth_error sizes
      (Z.to_nat ((i + step backwards) mod Z.of_nat (length sizes))).
Proof.
  intros Hi. unfold selectSize, newIndex, JS.rem, JS.add.
  fold (step backwards).
  destruct (Z.of_nat (length sizes) =? 0) eqn:En;
    [apply Z.eqb_eq in En; lia |].
  destruct (rem_step _ i backwards Hi) as [Hb He].
  rewrite at_mod by exact Hb. rewrite He. reflexivity.
Qed.

Lemma selectSize_in_range (sizes : list Size) (i : Z) (backwards : bool) :
  0 <= i < Z.of_nat (length sizes) ->
  exists s, selectSize sizes (Some i) backwards = Some s /\ In s sizes.
Proof.
  intros Hi. rewrite selectSize_mod by exact Hi.
  assert (Hmod : 0 <= (i + step backwards) mod Z.of_nat (length sizes)
                 < Z.of_nat (length sizes))
    by (apply Z.mod_pos_bound; lia).
  destruct (nth_error sizes
              (Z.to_nat ((i + step backwards) mod Z.of_nat (length sizes))))
    as [s |] eqn:E.
  - exists s. split; [reflexivity | exact (nth_error_In _ _ E)].
  - apply nth_error_None in E. lia.
Qed.

Lemma selectSize_undefined (backwards : bool) :
  selectSize [] None backwards = None.
Proof. destruct backwards; reflexivity. Qed.

(** ** The calls [_cycleWindowSizes] issues *)

Section Cycle.

Variables (self : Extension) (scale_factor : Z).
Variables (window : Window) (binding : KeyBinding).

Let workArea := get_work_area_current_monitor window.
Let outerRect := get_frame_rect window.
Let sizes := scaledSizes self scale_factor workArea.

Lemma cycle_selected (newWidth newHeight : Z) :
  selectSize sizes (nearestIndex (findNearest outerRect sizes))
             (is_reversed binding) = Some (newWidth, newHeight) ->
  _cycleWindowSizes self scale_factor window binding
  = (unmaximizeFirst window
     ++ [connect_size_changed;
         move_resize_frame true
           (inject_Z (fst (pushOnscreen outerRect workArea newWidth newHeight)))
           (inject_Z (snd (pushOnscreen outerRect workArea newWidth newHeight)))
           newWidth newHeight],
     inr tt).
Proof.
  intros Hsel. unfold _cycleWindowSizes, unmaximizeFirst.
  fold workArea outerRect. fold sizes. rewrite Hsel.
  unfold destructure, call, ret, bind.
  destruct (pushOnscreen outerRect workArea newWidth newHeight) as [newX newY].
  destruct (get_maximized window =? 0); reflexivity.
Qed.

Lemma cycle_undefined :
  selectSize sizes (nearestIndex (findNearest outerRect sizes))
             (is_reversed binding) = None ->
  _cycleWindowSizes self scale_factor window binding
  = (unmaximizeFirst window, inl JS.TypeError).
Proof.
  intros Hsel. unfold _cycleWindowSizes, unmaximizeFirst.
  fold workArea outerRect. fold sizes. rewrite Hsel.
  destruct (get_maximized window =? 0); reflexivity.
Qed.

End Cycle.

(** Every candidate fits the work area. *)
Lemma scaledSizes_fit (self : Extension) (scaleFactor : Z) (workArea : Rect)
    (w h : Z) :
  In (w, h) (scaledSizes self scaleFactor workArea) ->
  w <= width workArea /\ h <= height workArea.
Proof.
  unfold scaledSizes. intros H. apply filter_In in H as [_ H].
  apply andb_true_iff in H as [Hw Hh].
  split; apply Z.leb_le; assumption.
Qed.

(** The index the loop ends with lies inside a non-empty list. *)
Lemma findNearest_in_range (outerRect : Rect) (sizes : list Size) :
  sizes <> [] ->
  exists i : Z,
    nearestIndex (findNearest outerRect sizes) = Some i
    /\ 0 <= i < Z.of_nat (length sizes).
Proof.
  intros Hne.
  destruct (findNearest_spec outerRect sizes Hne) as (i & s & Hi & Hs & _).
  exists (Z.of_nat i). split; [exact Hi |].
  assert ((i < length sizes)%nat) by (apply nth_error_Some; congruence). lia.
Qed.

(** ** Properties of the size cycle *)

(** The first scenario of the specification. *)
Example cycle_forward_from_first :
  calls (_cycleWindowSizes this 1
           {| get_maximized := 0;
              get_work_area_current_monitor := mkRect 0 0 2000 1200;
              get_frame_rect := frame 1280 720 |}
           {| is_reversed := false |})
  = [connect_size_changed; move_resize_frame true 0 0 1280 900].
Proof. reflexivity. Qed.

(** C3.  On every non-empty candidate list and for every current outer
    rectangle, the nearest-match search ends with the index of a candidate
    (w, h) whose Manhattan error |w - outerRect.width| + |h - outerRect.height|
    is least among all candidates (that error is the value the search ends
    with), and among the candidates with that same least error it is the
    one with the smallest index. *)
Theorem nearest_match_minimal_earliest (outerRect : Rect) (sizes : list Size) :
  sizes <> [] ->
  exists (i : nat) (w h : Z),
    nearestIndex (findNearest outerRect sizes) = Some (Z.of_nat i)
    /\ nearestError (findNearest outerRect sizes)
       = Some (Z.abs (w - width outerRect) + Z.abs (h - height outerRect))
    /\ nth_error sizes i = Some (w, h)
    /\ (forall j w' h', nth_error sizes j = Some (w', h') ->
          Z.abs (w - width outerRect) + Z.abs (h - height outerRect)
          <= Z.abs (w' - width outerRect) + Z.abs (h' - height outerRect))
    /\ (forall j w' h', nth_error sizes j = Some (w', h') ->
          Z.abs (w' - width outerRect) + Z.abs (h' - height outerRect)
          = Z.abs (w - width outerRect) + Z.abs (h - height outerRect) ->
          (i <= j)%nat).
Proof.
  intros Hne. pose proof (findNearest_scanned outerRect sizes) as H.
  destruct sizes as [| s0 sizes0]; [congruence |].
  destruct H as (i & [w h] & Hst & Hi & Hmin & Hfirst).
  exists i, w, h. rewrite Hst. cbn [nearestIndex nearestError error].
  split; [reflexivity |]. split; [reflexivity |]. split; [exact Hi |]. split.
  - intros j w' h' Hj. exact (Hmin j (w', h') Hj).
  - intros j w' h' Hj Heq.
    destruct (Nat.le_gt_cases i j) as [Hle | Hlt]; [exact Hle |].
    pose proof (Hfirst j (w', h') Hlt Hj) as Hstrict.
    cbn [error] in Hstrict. lia.
Qed.

(** A 1360x900 window is 80 pixels from both 1280x900 and 1440x900, and
    further from the two other sizes: the search ends on index 1. *)
Lemma nearest_match_minimal_earliest_witness :
  SIZES this <> []
  /\ exists (i : nat) (w h : Z),
       nearestIndex (findNearest (frame 1360 900) (SIZES this))
       = Some (Z.of_nat i)
       /\ nearestError (findNearest (frame 1360 900) (SIZES this))
          = Some (Z.abs (w - 1360) + Z.abs (h - 900))
       /\ nth_error (SIZES this) i = Some (w, h)
       /\ (forall j w' h', nth_error (SIZES this) j = Some (w', h') ->
             Z.abs (w - 1360) + Z.abs (h - 900)
             <= Z.abs (w' - 1360) + Z.abs (h' - 900))
       /\ (forall j w' h', nth_error (SIZES this) j = Some (w', h') ->
             Z.abs (w' - 1360) + Z.abs (h' - 900)
             = Z.abs (w - 1360) + Z.abs (h - 900) ->
             (i <= j)%nat).
Proof.
  split; [discriminate |].
  apply (nearest_match_minimal_earliest (frame 1360 900) (SIZES this)).
  discriminate.
Defined.

Example nearest_tie_takes_earlier :
  nearestIndex (findNearest (frame 1360 900) (SIZES this)) = Some 1
  /\ error (frame 1360 900) (1280, 900) = 80
  /\ error (frame 1360 900) (1440, 900) = 80.
Proof. repeat split. Qed.

(** C4.  On a non-empty candidate list of length n the advance selects the
    candidate at index (nearestIndex + 1) mod n when cycling forward and at
    (nearestIndex - 1) mod n when cycling backward, the modulo being the
    non-negative one; forward from index n-1 the candidate at index 0 is
    selected, and backward from index 0 the candidate at index n-1. *)
Theorem advance_selects_mod_index (outerRect : Rect) (sizes : list Size) :
  sizes <> [] ->
  let n := Z.of_nat (length sizes) in
  (exists i : Z,
      nearestIndex (findNearest outerRect sizes) = Some i
      /\ 0 <= i < n
      /\ (forall backwards,
             0 <= (i + step backwards) mod n < n
             /\ selectSize sizes (Some i) backwards
                = nth_error sizes (Z.to_nat ((i + step backwards) mod n))))
  /\ selectSize sizes (Some (n - 1)) false = nth_error sizes 0
  /\ selectSize sizes (Some 0) true = nth_error sizes (Z.to_nat (n - 1)).
Proof.
  intros Hne n.
  assert (Hn : 0 < n) by (destruct sizes; [congruence | subst n; simpl; lia]).
  split; [| split].
  - destruct (findNearest_in_range outerRect sizes Hne) as (i & Hi & Hr).
    exists i. split; [exact Hi |]. split; [exact Hr |].
    intros backwards. split.
    + apply Z.mod_pos_bound. exact Hn.
    + apply selectSize_mod. exact Hr.
  - rewrite selectSize_mod by (fold n; lia). fold n. unfold step.
    replace (n - 1 + 1) with n by lia. rewrite Z.mod_same by lia. reflexivity.
  - rewrite selectSize_mod by (fold n; lia). fold n. unfold step.
    replace ((0 + -1) mod n) with (n - 1); [reflexivity |].
    apply (Z.mod_unique_pos (0 + -1) n (-1) (n - 1)); lia.
Qed.

Lemma advance_selects_mod_index_witness :
  SIZES this <> []
  /\ selectSize (SIZES this) (Some 3) false = Some (1280, 720)
  /\ selectSize (SIZES this) (Some 0) true = Some (1600, 900).
Proof.
  split; [discriminate |].
  exact (proj2 (advance_selects_mod_index (frame 1280 720) (SIZES this)
                  ltac:(discriminate))).
Defined.

(** The remainder of the source is the truncated one: backward from index 0
    it is -1, which [at] reads as the last index. *)
Example newIndex_backward_from_0 :
  newIndex (Some 0) true 4 = JS.Int (-1)
  /\ JS.at_ (SIZES this) (JS.Int (-1)) = Some (1600, 900).
Proof. split; reflexivity. Qed.

(** C10.  When exactly one candidate fits the work area, cycling in either
    direction requests the size of that candidate. *)
Theorem single_candidate_either_direction (self : Extension) (scale_factor : Z)
    (window : Window) (binding : KeyBinding) (w h : Z) :
  scaledSizes self scale_factor (get_work_area_current_monitor window)
  = [(w, h)] ->
  exists newX newY : Q,
    _cycleWindowSizes self scale_factor window binding
    = (unmaximizeFirst window
       ++ [connect_size_changed; move_resize_frame true newX newY w h],
       inr tt).
Proof.
  intros Hone. eexists _, _. apply cycle_selected. rewrite Hone.
  destruct (is_reversed binding); reflexivity.
Qed.

Lemma single_candidate_either_direction_witness :
  scaledSizes this 1 (mkRect 0 0 1300 800) = [(1280, 720)]
  /\ exists newX newY : Q,
       _cycleWindowSizes this 1
         (windowAt 0 (mkRect 0 0 1300 800) (mkRect 10 20 640 480)) backward
       = ([connect_size_changed; move_resize_frame true newX newY 1280 720],
          inr tt).
Proof.
  split; [reflexivity |].
  exact (single_candidate_either_direction this 1
           (windowAt 0 (mkRect 0 0 1300 800) (mkRect 10 20 640 480)) backward
           1280 720 eq_refl).
Defined.

(** ** Clamping *)

Section Clamping.

Variables (outerRect workArea : Rect) (newWidth newHeight : Z).

Let newX := fst (pushOnscreen outerRect workArea newWidth newHeight).
Let newY := snd (pushOnscreen outerRect workArea newWidth newHeight).

Ltac clamp_cases :=
  subst newX newY; unfold pushOnscreen; simpl;
  repeat match goal with
         | |- context [?a >? ?b] =>
             let E := fresh "E" in
             destruct (a >? b) eqn:E;
             [apply Z.gtb_lt in E | rewrite Z.gtb_ltb in E; apply Z.ltb_ge in E]
         end.

(** A size that fits the work area ends inside its far edges. *)
Lemma pushOnscreen_far_edges :
  newWidth <= width workArea -> newHeight <= height workArea ->
  newX + newWidth <= x workArea + width workArea
  /\ newY + newHeight <= y workArea + height workArea.
Proof. clamp_cases; lia. Qed.

(** The position never falls below both the old position and the origin. *)
Lemma pushOnscreen_lower_bound :
  Z.min (x outerRect) (x workArea) <= newX
  /\ Z.min (y outerRect) (y workArea) <= newY.
Proof. clamp_cases; lia. Qed.

(** A size that fits at the current position leaves the position alone. *)
Lemma pushOnscreen_fits_x :
  x outerRect + newWidth <= x workArea + width workArea ->
  newX = x outerRect.
Proof. clamp_cases; lia. Qed.

Lemma pushOnscreen_fits_y :
  y outerRect + newHeight <= y workArea + height workArea ->
  newY = y outerRect.
Proof. clamp_cases; lia. Qed.

(** Whenever the position is moved, it is moved to the origin or beyond. *)
Lemma pushOnscreen_moved_x :
  newX <> x outerRect -> x workArea <= newX.
Proof. clamp_cases; lia. Qed.

Lemma pushOnscreen_moved_y :
  newY <> y outerRect -> y workArea <= newY.
Proof. clamp_cases; lia. Qed.

End Clamping.

(** C5 as stated fails: a window that hangs over the left edge of the work
    area and whose new size fits at its position stays where it is, left of
    the work-area origin. *)
Lemma clamp_keeps_position_left_of_origin :
  pushOnscreen (mkRect (-100) 50 800 600) workArea_2000_1200 1280 720
  = (-100, 50)
  /\ fst (pushOnscreen (mkRect (-100) 50 800 600) workArea_2000_1200 1280 720)
     < x workArea_2000_1200.
Proof. split; reflexivity. Qed.

(** C5, amended.  Clamping never puts the position below the work-area origin
    on an axis on which the window's current position is at or beyond that
    origin (in general the new position is at least the smaller of the
    current position and the origin, and a position that is moved is moved
    to the origin or beyond); and it leaves the position unchanged on an
    axis on which the new size already fits at the current position. *)
Theorem clamp_origin_and_fit (outerRect workArea : Rect)
    (newWidth newHeight : Z) :
  let newX := fst (pushOnscreen outerRect workArea newWidth newHeight) in
  let newY := snd (pushOnscreen outerRect workArea newWidth newHeight) in
  (x workArea <= x outerRect -> x workArea <= newX)
  /\ (y workArea <= y outerRect -> y workArea <= newY)
  /\ Z.min (x outerRect) (x workArea) <= newX
  /\ Z.min (y outerRect) (y workArea) <= newY
  /\ (newX <> x outerRect -> x workArea <= newX)
  /\ (newY <> y outerRect -> y workArea <= newY)
  /\ (x outerRect + newWidth <= x workArea + width workArea ->
      newX = x outerRect)
  /\ (y outerRect + newHeight <= y workArea + height workArea ->
      newY = y outerRect).
Proof.
  intros newX newY.
  pose proof (pushOnscreen_lower_bound outerRect workArea newWidth newHeight)
    as [Hx Hy].
  fold newX in Hx. fold newY in Hy.
  repeat split; try assumption.
  - lia.
  - lia.
  - apply pushOnscreen_moved_x.
  - apply pushOnscreen_moved_y.
  - apply pushOnscreen_fits_x.
  - apply pushOnscreen_fits_y.
Qed.

Lemma clamp_origin_and_fit_witness :
  x workArea_2000_1200 <= x (mkRect 900 700 800 600)
  /\ y workArea_2000_1200 <= y (mkRect 900 700 800 600)
  /\ x workArea_2000_1200
     <= fst (pushOnscreen (mkRect 900 700 800 600) workArea_2000_1200 1280 720)
  /\ y workArea_2000_1200
     <= snd (pushOnscreen (mkRect 900 700 800 600) workArea_2000_1200 1280 720).
Proof.
  split; [vm_compute; discriminate |]. split; [vm_compute; discriminate |].
  pose proof (clamp_origin_and_fit (mkRect 900 700 800 600)
                workArea_2000_1200 1280 720) as (Hx & Hy & _).
  split; [apply Hx | apply Hy]; vm_compute; discriminate.
Defined.

(** C9.  On a non-empty candidate list the operation returns after
    requesting a frame whose size is one of the candidates, so no wider and
    no higher than the work area; and when the window's position is at or
    beyond the work-area origin, the requested frame ends at or before the
    far edges of the work area on both axes. *)
Theorem requested_frame_fits (self : Extension) (scale_factor : Z)
    (window : Window) (binding : KeyBinding) :
  let workArea := get_work_area_current_monitor window in
  let outerRect := get_frame_rect window in
  scaledSizes self scale_factor workArea <> [] ->
  exists newX newY newWidth newHeight : Z,
    _cycleWindowSizes self scale_factor window binding
    = (unmaximizeFirst window
       ++ [connect_size_changed;
           move_resize_frame true (inject_Z newX) (inject_Z newY)
                             newWidth newHeight],
       inr tt)
    /\ In (newWidth, newHeight) (scaledSizes self scale_factor workArea)
    /\ newWidth <= width workArea
    /\ newHeight <= height workArea
    /\ (x workArea <= x outerRect -> y workArea <= y outerRect ->
        newX + newWidth <= x workArea + width workArea
        /\ newY + newHeight <= y workArea + height workArea).
Proof.
  intros workArea outerRect Hne.
  set (sizes := scaledSizes self scale_factor workArea) in *.
  destruct (findNearest_in_range outerRect sizes Hne) as (i & Hi & Hr).
  destruct (selectSize_in_range sizes i (is_reversed binding) Hr)
    as ([newWidth newHeight] & Hsel & Hin).
  destruct (scaledSizes_fit _ _ _ _ _ Hin) as [Hw Hh].
  exists (fst (pushOnscreen outerRect workArea newWidth newHeight)),
         (snd (pushOnscreen outerRect workArea newWidth newHeight)),
         newWidth, newHeight.
  split; [| repeat split; try assumption].
  - apply cycle_selected. fold workArea outerRect. fold sizes.
    rewrite Hi. exact Hsel.
  - apply pushOnscreen_far_edges; assumption.
  - apply pushOnscreen_far_edges; assumption.
Qed.

Lemma requested_frame_fits_witness :
  scaledSizes this 1 workArea_2000_1200 <> []
  /\ exists newX newY newWidth newHeight : Z,
       _cycleWindowSizes this 1
         (windowAt BOTH workArea_2000_1200 (mkRect 900 700 1280 720)) forward
       = ([unmaximize BOTH; connect_size_changed;
           move_resize_frame true (inject_Z newX) (inject_Z newY)
                             newWidth newHeight],
          inr tt)
       /\ In (newWidth, newHeight) (scaledSizes this 1 workArea_2000_1200)
       /\ newWidth <= 2000
       /\ newHeight <= 1200
       /\ (0 <= 900 -> 0 <= 700 ->
           newX + newWidth <= 0 + 2000 /\ newY + newHeight <= 0 + 1200).
Proof.
  split; [discriminate |].
  apply (requested_frame_fits this 1
           (windowAt BOTH workArea_2000_1200 (mkRect 900 700 1280 720))
           forward).
  discriminate.
Defined.

Example requested_frame_pushed_onscreen :
  calls (_cycleWindowSizes this 1
           (windowAt 0 workArea_2000_1200 (mkRect 900 700 1280 720)) forward)
  = [connect_size_changed; move_resize_frame true 720 300 1280 900].
Proof. reflexivity. Qed.

(** ** Cycling there and back *)

Lemma error_nonneg (r : Rect) (s : Size) : 0 <= error r s.
Proof. destruct s as [w h]. unfold error. lia. Qed.

Lemma error_zero (r : Rect) (s : Size) :
  error r s = 0 -> s = (width r, height r).
Proof.
  destruct s as [w h]. unfold error. intros H. f_equal; lia.
Qed.

Lemma error_exact (r : Rect) : error r (width r, height r) = 0.
Proof. unfold error. lia. Qed.

(** When the current size is one of pairwise distinct candidates, the search
    ends on that candidate. *)
Lemma findNearest_exact (r : Rect) (sizes : list Size) (k : nat) :
  NoDup sizes ->
  nth_error sizes k = Some (width r, height r) ->
  nearestIndex (findNearest r sizes) = Some (Z.of_nat k).
Proof.
  intros Hnd Hk.
  assert (Hne : sizes <> []) by (destruct sizes; [destruct k |]; discriminate).
  destruct (findNearest_spec r sizes Hne) as (i & s & Hi & Hs & Hmin & _).
  specialize (Hmin k _ Hk). rewrite error_exact in Hmin.
  pose proof (error_nonneg r s) as H0.
  assert (Es : s = (width r, height r)) by (apply error_zero; lia).
  subst s. rewrite Hi. do 2 f_equal.
  apply (proj1 (NoDup_nth_error sizes) Hnd).
  - apply nth_error_Some. rewrite Hs. discriminate.
  - rewrite Hs, Hk. reflexivity.
Qed.

Lemma step_back (n i : Z) (backwards : bool) :
  0 <= i < n ->
  ((i + step backwards) mod n + step (negb backwards)) mod n = i.
Proof.
  intros Hi. rewrite Z.add_mod_idemp_l by lia.
  replace (i + step backwards + step (negb backwards)) with i
    by (destruct backwards; unfold step; simpl; lia).
  apply Z.mod_small. exact Hi.
Qed.

(** C1.  On a non-empty list of pairwise distinct candidates, a cycle in one
    direction followed by a cycle in the opposite direction, invoked on the
    same work area against a frame of the size the first call requested,
    requests the size of the candidate the first call started from: the
    second search ends exactly on the index the first call selected, and the
    opposite advance leads back to the starting index. *)
Theorem cycle_then_opposite_returns (self : Extension) (scale_factor : Z)
    (window window' : Window) (binding binding' : KeyBinding) :
  let workArea := get_work_area_current_monitor window in
  let sizes := scaledSizes self scale_factor workArea in
  let n := Z.of_nat (length sizes) in
  sizes <> [] ->
  NoDup sizes ->
  is_reversed binding' = negb (is_reversed binding) ->
  get_work_area_current_monitor window' = workArea ->
  exists (i : nat) (start : Size) (newX newY : Q) (newWidth newHeight : Z),
    nearestIndex (findNearest (get_frame_rect window) sizes)
    = Some (Z.of_nat i)
    /\ nth_error sizes i = Some start
    /\ _cycleWindowSizes self scale_factor window binding
       = (unmaximizeFirst window
          ++ [connect_size_changed;
              move_resize_frame true newX newY newWidth newHeight],
          inr tt)
    /\ (width (get_frame_rect window') = newWidth ->
        height (get_frame_rect window') = newHeight ->
        nearestIndex (findNearest (get_frame_rect window') sizes)
        = Some ((Z.of_nat i + step (is_reversed binding)) mod n)
        /\ nth_error sizes
             (Z.to_nat ((Z.of_nat i + step (is_reversed binding)) mod n))
           = Some (newWidth, newHeight)
        /\ exists newX' newY' : Q,
             _cycleWindowSizes self scale_factor window' binding'
             = (unmaximizeFirst window'
                ++ [connect_size_changed;
                    move_resize_frame true newX' newY' (fst start) (snd start)],
                inr tt)).
Proof.
  intros workArea sizes n Hne Hnd Hopp Hwa.
  destruct (findNearest_spec (get_frame_rect window) sizes Hne)
    as (i & start & Hi & Hstart & _).
  assert (Hr : 0 <= Z.of_nat i < n).
  { assert ((i < length sizes)%nat) by (apply nth_error_Some; congruence).
    subst n. lia. }
  set (b := is_reversed binding) in *.
  set (k := (Z.of_nat i + step b) mod n).
  assert (Hk : 0 <= k < n) by (apply Z.mod_pos_bound; lia).
  pose proof (selectSize_mod sizes (Z.of_nat i) b Hr) as Hsel.
  fold n in Hsel. fold k in Hsel.
  destruct (nth_error sizes (Z.to_nat k)) as [[newWidth newHeight] |] eqn:Ek;
    [| apply nth_error_None in Ek; subst n; lia].
  exists i, start. eexists _, _. exists newWidth, newHeight.
  split; [exact Hi |]. split; [exact Hstart |]. split.
  - apply cycle_selected. fold workArea. fold sizes. rewrite Hi. exact Hsel.
  - intros Hw Hh.
    assert (Hnear : nearestIndex (findNearest (get_frame_rect window') sizes)
                    = Some k).
    { rewrite <- (Z2Nat.id k) by lia.
      apply findNearest_exact; [exact Hnd |]. rewrite Hw, Hh. exact Ek. }
    split; [exact Hnear |]. split; [exact Ek |].
    destruct start as [w h]. eexists _, _.
    apply cycle_selected. rewrite Hwa. fold workArea. fold sizes.
    rewrite Hnear, Hopp. fold b.
    rewrite selectSize_mod by (fold n; exact Hk). fold n.
    unfold k. rewrite step_back by exact Hr.
    rewrite Nat2Z.id. exact Hstart.
Qed.

Lemma cycle_then_opposite_returns_witness :
  scaledSizes this 1 workArea_2000_1200 <> []
  /\ NoDup (scaledSizes this 1 workArea_2000_1200)
  /\ exists (i : nat) (start : Size) (newX newY : Q) (newWidth newHeight : Z),
       nearestIndex (findNearest (mkRect 100 100 1280 720)
                                 (scaledSizes this 1 workArea_2000_1200))
       = Some (Z.of_nat i)
       /\ nth_error (scaledSizes this 1 workArea_2000_1200) i = Some start
       /\ _cycleWindowSizes this 1
            (windowAt 0 workArea_2000_1200 (mkRect 100 100 1280 720)) backward
          = ([connect_size_changed;
              move_resize_frame true newX newY newWidth newHeight],
             inr tt)
       /\ (1600 = newWidth ->
           900 = newHeight ->
           nearestIndex (findNearest (mkRect 100 100 1600 900)
                                     (scaledSizes this 1 workArea_2000_1200))
           = Some ((Z.of_nat i + -1) mod 4)
           /\ nth_error (scaledSizes this 1 workArea_2000_1200)
                (Z.to_nat ((Z.of_nat i + -1) mod 4))
              = Some (newWidth, newHeight)
           /\ exists newX' newY' : Q,
                _cycleWindowSizes this 1
                  (windowAt 0 workArea_2000_1200 (mkRect 100 100 1600 900))
                  forward
                = ([connect_size_changed;
                    move_resize_frame true newX' newY' (fst start) (snd start)],
                   inr tt)).
Proof.
  assert (Hnd : NoDup (scaledSizes this 1 workArea_2000_1200)).
  { repeat constructor; simpl; intuition discriminate. }
  split; [discriminate |]. split; [exact Hnd |].
  exact (cycle_then_opposite_returns this 1
           (windowAt 0 workArea_2000_1200 (mkRect 100 100 1280 720))
           (windowAt 0 workArea_2000_1200 (mkRect 100 100 1600 900))
           backward forward ltac:(discriminate) Hnd eq_refl eq_refl).
Defined.

Example backward_then_forward_1280_720 :
  calls (_cycleWindowSizes this 1
           (windowAt 0 workArea_2000_1200 (mkRect 100 100 1280 720)) backward)
  = [connect_size_changed; move_resize_frame true 100 100 1600 900]
  /\ calls (_cycleWindowSizes this 1
              (windowAt 0 workArea_2000_1200 (mkRect 100 100 1600 900)) forward)
     = [connect_size_changed; move_resize_frame true 100 100 1280 720].
Proof. split; reflexivity. Qed.

(** ** No fitting candidate *)

(** The second scenario of the specification: the sizes scaled by 2 against
    a 1000x800 work area. *)
Example no_size_fits_1000_800 :
  scaledSizes this 2 (mkRect 0 0 1000 800) = [].
Proof. reflexivity. Qed.

(** C2 as stated fails: with no fitting candidate, a maximized window is
    unmaximized before the operation aborts. *)
Lemma no_candidate_unmaximizes :
  scaledSizes this 2 (mkRect 0 0 1000 800) = []
  /\ _cycleWindowSizes this 2
       (windowAt BOTH (mkRect 0 0 1000 800) (mkRect 0 0 1000 800)) forward
     = ([unmaximize BOTH], inl JS.TypeError).
Proof. split; reflexivity. Qed.

(** C2, amended.  When no scaled size fits the work area, the operation
    aborts by raising an error at the selection of the new size, before it
    connects the size-changed handler (so no notification follows) and
    before it requests any move or resize; the only call it has issued by
    then is the unmaximize of a window that was maximized, and for a window
    that was not maximized it has issued none. *)
Theorem no_candidate_aborts (self : Extension) (scale_factor : Z)
    (window : Window) (binding : KeyBinding) :
  scaledSizes self scale_factor (get_work_area_current_monitor window) = [] ->
  _cycleWindowSizes self scale_factor window binding
  = (if get_maximized window =? 0 then [] else [unmaximize BOTH],
     inl JS.TypeError)
  /\ ~ In connect_size_changed
          (calls (_cycleWindowSizes self scale_factor window binding))
  /\ (forall user_op newX newY newWidth newHeight,
         ~ In (move_resize_frame user_op newX newY newWidth newHeight)
              (calls (_cycleWindowSizes self scale_factor window binding)))
  /\ (get_maximized window = 0 ->
      calls (_cycleWindowSizes self scale_factor window binding) = []).
Proof.
  intros Hnone.
  assert (E : _cycleWindowSizes self scale_factor window binding
              = (unmaximizeFirst window, inl JS.TypeError)).
  { apply cycle_undefined. rewrite Hnone. apply selectSize_undefined. }
  rewrite E. unfold unmaximizeFirst, calls. simpl fst.
  split; [reflexivity |].
  destruct (get_maximized window =? 0) eqn:Em.
  - repeat split; auto.
  - repeat split.
    + intros [H | []]. discriminate.
    + intros ? ? ? ? ? [H | []]. discriminate.
    + intros Hm. rewrite Hm in Em. discriminate.
Qed.

Lemma no_candidate_aborts_witness :
  scaledSizes this 2 (mkRect 0 0 1000 800) = []
  /\ _cycleWindowSizes this 2
       (windowAt 0 (mkRect 0 0 1000 800) (mkRect 40 40 640 480)) backward
     = ([], inl JS.TypeError).
Proof.
  split; [reflexivity |].
  exact (proj1 (no_candidate_aborts this 2
                  (windowAt 0 (mkRect 0 0 1000 800) (mkRect 40 40 640 480))
                  backward eq_refl)).
Defined.

(** ** Centring *)

(** C6.  For every outer rectangle and work area the centre operation
    returns after requesting a move to
    newX = workArea.x + (workArea.width - outerRect.width) / 2 and
    newY = workArea.y + (workArea.height - outerRect.height) / 2 with the
    width and height of the window unchanged, whatever the two sizes are
    (nothing is clamped), so that the centre of the requested frame is the
    centre of the work area on both axes. *)
Theorem center_is_exact (window : Window) :
  let workArea := get_work_area_current_monitor window in
  let outerRect := get_frame_rect window in
  exists newX newY : Q,
    _centerWindow window
    = (unmaximizeFirst window
       ++ [connect_size_changed;
           move_resize_frame true newX newY
                             (width outerRect) (height outerRect)],
       inr tt)
    /\ (newX == inject_Z (x workArea)
                + (inject_Z (width workArea) - inject_Z (width outerRect)) / 2)%Q
    /\ (newY == inject_Z (y workArea)
                + (inject_Z (height workArea) - inject_Z (height outerRect)) / 2)%Q
    /\ (newX + inject_Z (width outerRect) / 2
        == inject_Z (x workArea) + inject_Z (width workArea) / 2)%Q
    /\ (newY + inject_Z (height outerRect) / 2
        == inject_Z (y workArea) + inject_Z (height workArea) / 2)%Q.
Proof.
  intros workArea outerRect. eexists _, _. split.
  - unfold _centerWindow, unmaximizeFirst, call, ret, bind.
    fold workArea outerRect.
    destruct (get_maximized window =? 0); reflexivity.
  - change (inject_Z 2) with 2%Q. unfold Z.sub.
    rewrite !inject_Z_plus, !inject_Z_opp.
    repeat split; field.
Qed.

(** A window wider and higher than the work area is centred all the same,
    its left and top edges before the origin of the work area. *)
Example center_oversized :
  calls (_centerWindow (windowAt 0 (mkRect 0 32 1000 800) (mkRect 5 5 1400 900)))
  = [connect_size_changed;
     move_resize_frame true
       (inject_Z 0 + inject_Z (-400) / inject_Z 2)%Q
       (inject_Z 32 + inject_Z (-100) / inject_Z 2)%Q
       1400 900]
  /\ (inject_Z 0 + inject_Z (-400) / inject_Z 2 == inject_Z (-200))%Q
  /\ (inject_Z 32 + inject_Z (-100) / inject_Z 2 == inject_Z (-18))%Q.
Proof. repeat split. Qed.

(** ** The ratio suffix of the notification *)

Lemma notifySizeChange_message (scaleFactor : Z) (window : Window) :
  _notifySizeChange scaleFactor window
  = size_d_x_d
      (Number (width (get_frame_rect window)) / Number scaleFactor)%float
      (Number (height (get_frame_rect window)) / Number scaleFactor)%float
    :: (if ratioDiffers (get_frame_rect window)
        then [ratio_2f_9 (actualNumerator (get_frame_rect window))]
        else []).
Proof.
  unfold _notifySizeChange.
  destruct (ratioDiffers (get_frame_rect window)); reflexivity.
Qed.

(** The rational test of the specification, for a positive height, in
    integers. *)
Lemma spec_within_tolerance (w h : Z) :
  0 < h ->
  (Qabs (9 * inject_Z w / inject_Z h - 16) < 1 # 100)%Q
  <-> 100 * Z.abs (9 * w - 16 * h) < h.
Proof.
  intros Hh. destruct h as [| p | p]; try lia.
  unfold Qlt, Qabs, Qminus, Qdiv, Qmult, Qplus, Qopp, Qinv, inject_Z.
  cbn [Qnum Qden]. rewrite ?Pos.mul_1_r, ?Pos.mul_1_l, ?Z.mul_1_r, ?Z.mul_1_l.
  lia.
Qed.

Lemma heightsQuiet_bandQuiet (n : nat) (h : Z) :
  heightsQuiet n = true -> 0 < h <= Z.of_nat n -> bandQuiet h = true.
Proof.
  induction n as [| k IH]; intros Hq Hh.
  - simpl in Hh. lia.
  - change (heightsQuiet (S k))
      with (bandQuiet (Z.of_nat (S k)) && heightsQuiet k) in Hq.
    apply andb_true_iff in Hq as [Hb Hk].
    destruct (Z.eq_dec h (Z.of_nat (S k))) as [-> | Hneq]; [exact Hb |].
    apply IH; [exact Hk | lia].
Qed.

Lemma heightsQuiet_4320 : heightsQuiet 4320 = true.
Proof. vm_compute. reflexivity. Qed.

(** For every height up to 4320 and every width, a ratio strictly within
    0.01 of 16 over the rationals gets no suffix from the binary64 test. *)
Lemma within_tolerance_no_suffix (w h : Z) :
  0 < h <= 4320 ->
  (Qabs (9 * inject_Z w / inject_Z h - 16) < 1 # 100)%Q ->
  ratioDiffers (frame w h) = false.
Proof.
  intros Hh Hq. apply spec_within_tolerance in Hq; [| lia].
  pose proof (heightsQuiet_bandQuiet 4320 h heightsQuiet_4320 ltac:(lia)) as Hb.
  unfold bandQuiet in Hb. rewrite forallb_forall in Hb.
  pose proof (Z.div_mod (16 * h) 9 ltac:(lia)) as Hdm.
  pose proof (Z.mod_pos_bound (16 * h) 9 ltac:(lia)) as Hmb.
  assert (He : In (w - 16 * h / 9) bandOffsets).
  { assert (Hr : -5 <= w - 16 * h / 9 <= 5) by lia.
    unfold bandOffsets. simpl.
    assert (Hc : w - 16 * h / 9 = -5 \/ w - 16 * h / 9 = -4
                 \/ w - 16 * h / 9 = -3 \/ w - 16 * h / 9 = -2
                 \/ w - 16 * h / 9 = -1 \/ w - 16 * h / 9 = 0
                 \/ w - 16 * h / 9 = 1 \/ w - 16 * h / 9 = 2
                 \/ w - 16 * h / 9 = 3 \/ w - 16 * h / 9 = 4
                 \/ w - 16 * h / 9 = 5) by lia.
    intuition auto. }
  specialize (Hb _ He). cbv zeta in Hb.
  replace (16 * h / 9 + (w - 16 * h / 9)) with w in Hb by lia.
  assert (Hw : withinTolerance w h = true) by (apply Z.ltb_lt; exact Hq).
  rewrite Hw in Hb. simpl in Hb. apply negb_true_iff in Hb. exact Hb.
Qed.

(** ** The binary64 test against the exact test, cell by cell *)













(** Away from the exact boundary the two readings give the same answer on
    the sizes of the specification; on the other exact boundary, 533x300,
    binary64 rounds the other way and no suffix is appended. *)
Example ratio_suffix_samples :
  ratioDiffers (frame 1600 900) = false
  /\ ~ spec_ratioDiffers (frame 1600 900)
  /\ ratioDiffers (frame 1600 894) = true
  /\ spec_ratioDiffers (frame 1600 894)
  /\ ratioDiffers (frame 533 300) = false
  /\ ~ spec_ratioDiffers (frame 533 300).
Proof.
  repeat split; try (intros H; vm_compute in H; discriminate).
Qed.

(** ** Further properties of the size cycle *)

(** What the handler does whenever some size fits. *)
Lemma cycle_some_candidate (self : Extension) (scale_factor : Z)
    (window : Window) (binding : KeyBinding) :
  let workArea := get_work_area_current_monitor window in
  let outerRect := get_frame_rect window in
  let sizes := scaledSizes self scale_factor workArea in
  sizes <> [] ->
  exists (i newWidth newHeight : Z),
    nearestIndex (findNearest outerRect sizes) = Some i
    /\ 0 <= i < Z.of_nat (length sizes)
    /\ nth_error sizes
         (Z.to_nat ((i + step (is_reversed binding))
                    mod Z.of_nat (length sizes)))
       = Some (newWidth, newHeight)
    /\ _cycleWindowSizes self scale_factor window binding
       = (unmaximizeFirst window
          ++ [connect_size_changed;
              move_resize_frame true
                (inject_Z (fst (pushOnscreen outerRect workArea
                                             newWidth newHeight)))
                (inject_Z (snd (pushOnscreen outerRect workArea
                                             newWidth newHeight)))
                newWidth newHeight],
          inr tt).
Proof.
  intros workArea outerRect sizes Hne.
  destruct (findNearest_in_range outerRect sizes Hne) as (i & Hi & Hr).
  destruct (selectSize_in_range sizes i (is_reversed binding) Hr)
    as ([newWidth newHeight] & Hsel & _).
  exists i, newWidth, newHeight.
  split; [exact Hi |]. split; [exact Hr |]. split.
  - rewrite <- selectSize_mod by exact Hr. exact Hsel.
  - apply cycle_selected. fold workArea outerRect. fold sizes.
    rewrite Hi. exact Hsel.
Qed.

Lemma last_two {A : Type} (l : list A) (a b d : A) :
  last (l ++ [a; b]) d = b.
Proof.
  change (l ++ [a; b]) with (l ++ [a] ++ [b]).
  rewrite app_assoc. apply last_last.
Qed.

(** X1.  The cycle handler throws exactly when no scaled size fits the work
    area, and returns normally exactly when some size fits. *)
Theorem cycle_throws_iff_no_candidate (self : Extension) (scale_factor : Z)
    (window : Window) (binding : KeyBinding) :
  (outcome (_cycleWindowSizes self scale_factor window binding)
   = inl JS.TypeError
   <-> scaledSizes self scale_factor (get_work_area_current_monitor window)
       = [])
  /\ (outcome (_cycleWindowSizes self scale_factor window binding) = inr tt
      <-> scaledSizes self scale_factor (get_work_area_current_monitor window)
          <> []).
Proof.
  destruct (scaledSizes self scale_factor
              (get_work_area_current_monitor window)) as [| s0 rest] eqn:E.
  - assert (Hthrow : _cycleWindowSizes self scale_factor window binding
                     = (unmaximizeFirst window, inl JS.TypeError)).
    { apply cycle_undefined. rewrite E. apply selectSize_undefined. }
    rewrite Hthrow. unfold outcome. simpl.
    split; split; intros H; try reflexivity; try discriminate; congruence.
  - assert (Hne : scaledSizes self scale_factor
                    (get_work_area_current_monitor window) <> [])
      by (rewrite E; discriminate).
    destruct (cycle_some_candidate self scale_factor window binding Hne)
      as (i & nw & nh & _ & _ & _ & Hrun).
    rewrite Hrun. unfold outcome. simpl.
    split; split; intros H; try reflexivity; try discriminate; congruence.
Qed.

(** A size that fits the work area is never pushed right or down. *)
Lemma pushOnscreen_not_increased (outerRect workArea : Rect)
    (newWidth newHeight : Z) :
  newWidth <= width workArea -> newHeight <= height workArea ->
  fst (pushOnscreen outerRect workArea newWidth newHeight) <= x outerRect
  /\ snd (pushOnscreen outerRect workArea newWidth newHeight) <= y outerRect.
Proof.
  intros Hw Hh. unfold pushOnscreen. simpl.
  destruct (x outerRect + newWidth >? x workArea + width workArea) eqn:Ex;
    destruct (y outerRect + newHeight >? y workArea + height workArea) eqn:Ey;
    rewrite ?Z.gtb_ltb in *;
    repeat match goal with
           | H : (_ <? _) = true |- _ => apply Z.ltb_lt in H
           | H : (_ <? _) = false |- _ => apply Z.ltb_ge in H
           end; lia.
Qed.

(** X2.  Whenever some size fits, the frame the cycle handler requests is
    never right of or below the window's current position: the window is
    only ever pushed left or up. *)
Theorem cycle_never_moves_right_or_down (self : Extension) (scale_factor : Z)
    (window : Window) (binding : KeyBinding) :
  scaledSizes self scale_factor (get_work_area_current_monitor window) <> [] ->
  exists newX newY newWidth newHeight : Z,
    _cycleWindowSizes self scale_factor window binding
    = (unmaximizeFirst window
       ++ [connect_size_changed;
           move_resize_frame true (inject_Z newX) (inject_Z newY)
                             newWidth newHeight],
       inr tt)
    /\ newX <= x (get_frame_rect window)
    /\ newY <= y (get_frame_rect window).
Proof.
  intros Hne.
  destruct (cycle_some_candidate self scale_factor window binding Hne)
    as (i & nw & nh & _ & _ & Hnth & Hrun).
  destruct (scaledSizes_fit _ _ _ _ _ (nth_error_In _ _ Hnth)) as [Hw Hh].
  eexists _, _, nw, nh. split; [exact Hrun |].
  apply pushOnscreen_not_increased; assumption.
Qed.

Lemma cycle_never_moves_right_or_down_witness :
  scaledSizes this 1 workArea_2000_1200 <> []
  /\ exists newX newY newWidth newHeight : Z,
       _cycleWindowSizes this 1
         (windowAt 0 workArea_2000_1200 (mkRect 900 700 1280 720)) forward
       = ([connect_size_changed;
           move_resize_frame true (inject_Z newX) (inject_Z newY)
                             newWidth newHeight],
          inr tt)
       /\ newX <= 900
       /\ newY <= 700.
Proof.
  split; [discriminate |].
  apply (cycle_never_moves_right_or_down this 1
           (windowAt 0 workArea_2000_1200 (mkRect 900 700 1280 720)) forward).
  discriminate.
Defined.

(** X3.  Whenever some size fits and the window's top-left corner lies at or
    beyond the work-area origin, the frame the cycle handler requests lies
    inside the work area on all four edges. *)
Theorem cycle_frame_inside_work_area (self : Extension) (scale_factor : Z)
    (window : Window) (binding : KeyBinding) :
  let workArea := get_work_area_current_monitor window in
  let outerRect := get_frame_rect window in
  scaledSizes self scale_factor workArea <> [] ->
  x workArea <= x outerRect ->
  y workArea <= y outerRect ->
  exists newX newY newWidth newHeight : Z,
    _cycleWindowSizes self scale_factor window binding
    = (unmaximizeFirst window
       ++ [connect_size_changed;
           move_resize_frame true (inject_Z newX) (inject_Z newY)
                             newWidth newHeight],
       inr tt)
    /\ x workArea <= newX
    /\ newX + newWidth <= x workArea + width workArea
    /\ y workArea <= newY
    /\ newY + newHeight <= y workArea + height workArea.
Proof.
  intros workArea outerRect Hne Hx Hy.
  destruct (cycle_some_candidate self scale_factor window binding Hne)
    as (i & nw & nh & _ & _ & Hnth & Hrun).
  destruct (scaledSizes_fit _ _ _ _ _ (nth_error_In _ _ Hnth)) as [Hw Hh].
  eexists _, _, nw, nh. split; [exact Hrun |].
  pose proof (pushOnscreen_far_edges outerRect workArea nw nh Hw Hh)
    as [Hfx Hfy].
  pose proof (pushOnscreen_lower_bound outerRect workArea nw nh) as [Hlx Hly].
  subst workArea outerRect. repeat split; lia.
Qed.

Lemma cycle_frame_inside_work_area_witness :
  scaledSizes this 1 workArea_2000_1200 <> []
  /\ 0 <= 900 /\ 0 <= 700
  /\ exists newX newY newWidth newHeight : Z,
       _cycleWindowSizes this 1
         (windowAt 0 workArea_2000_1200 (mkRect 900 700 1280 720)) backward
       = ([connect_size_changed;
           move_resize_frame true (inject_Z newX) (inject_Z newY)
                             newWidth newHeight],
          inr tt)
       /\ 0 <= newX
       /\ newX + newWidth <= 0 + 2000
       /\ 0 <= newY
       /\ newY + newHeight <= 0 + 1200.
Proof.
  split; [discriminate |]. split; [lia |]. split; [lia |].
  apply (cycle_frame_inside_work_area this 1
           (windowAt 0 workArea_2000_1200 (mkRect 900 700 1280 720)) backward);
    [discriminate | simpl; lia | simpl; lia].
Defined.

(** The size the handler requests, read off its calls. *)
Lemma cycle_requestedSize (self : Extension) (scale_factor : Z)
    (window : Window) (binding : KeyBinding) :
  let sizes :=
    scaledSizes self scale_factor (get_work_area_current_monitor window) in
  sizes <> [] ->
  exists (i : Z) (size : Size),
    nearestIndex (findNearest (get_frame_rect window) sizes) = Some i
    /\ 0 <= i < Z.of_nat (length sizes)
    /\ nth_error sizes
         (Z.to_nat ((i + step (is_reversed binding))
                    mod Z.of_nat (length sizes)))
       = Some size
    /\ requestedSize (_cycleWindowSizes self scale_factor window binding)
       = Some size.
Proof.
  intros sizes Hne.
  destruct (cycle_some_candidate self scale_factor window binding Hne)
    as (i & nw & nh & Hi & Hr & Hnth & Hrun).
  exists i, (nw, nh).
  split; [exact Hi |]. split; [exact Hr |]. split; [exact Hnth |].
  rewrite Hrun. unfold requestedSize, calls. simpl fst.
  rewrite last_two. reflexivity.
Qed.

Lemma step_not_fixed (n i : Z) (backwards : bool) :
  2 <= n -> 0 <= i < n -> (i + step backwards) mod n <> i.
Proof.
  intros Hn Hi H.
  destruct backwards; unfold step in H.
  - destruct (Z.eq_dec i 0) as [-> | Hi0].
    + replace ((0 + -1) mod n) with (n - 1) in H; [lia |].
      apply (Z.mod_unique_pos (0 + -1) n (-1) (n - 1)); lia.
    + rewrite Z.mod_small in H by lia. lia.
  - destruct (Z.eq_dec (i + 1) n) as [E | E].
    + rewrite E, Z.mod_same in H by lia. lia.
    + rewrite Z.mod_small in H by lia. lia.
Qed.

(** X4.  With at least two pairwise distinct candidates, the size the cycle
    handler requests is never the candidate nearest to the current size; in
    particular, for a window whose size is one of the candidates, every key
    press requests a different size. *)
Theorem cycle_changes_size (self : Extension) (scale_factor : Z)
    (window : Window) (binding : KeyBinding) :
  let outerRect := get_frame_rect window in
  let sizes :=
    scaledSizes self scale_factor (get_work_area_current_monitor window) in
  NoDup sizes ->
  (2 <= length sizes)%nat ->
  exists (i : nat) (nearest requested : Size),
    nearestIndex (findNearest outerRect sizes) = Some (Z.of_nat i)
    /\ nth_error sizes i = Some nearest
    /\ requestedSize (_cycleWindowSizes self scale_factor window binding)
       = Some requested
    /\ requested <> nearest
    /\ (In (width outerRect, height outerRect) sizes ->
        requested <> (width outerRect, height outerRect)).
Proof.
  intros outerRect sizes Hnd Hlen.
  assert (Hne : sizes <> []) by (destruct sizes; [simpl in Hlen; lia | discriminate]).
  destruct (cycle_requestedSize self scale_factor window binding Hne)
    as (i & requested & Hi & Hr & Hnth & Hreq).
  fold sizes outerRect in Hi, Hr, Hnth.
  destruct (nth_error sizes (Z.to_nat i)) as [nearest |] eqn:En;
    [| apply nth_error_None in En; lia].
  assert (Hdiff : requested <> nearest).
  { intros ->.
    assert (Hk : 0 <= (i + step (is_reversed binding))
                      mod Z.of_nat (length sizes) < Z.of_nat (length sizes))
      by (apply Z.mod_pos_bound; lia).
    assert (E : Z.to_nat ((i + step (is_reversed binding))
                          mod Z.of_nat (length sizes)) = Z.to_nat i).
    { apply (proj1 (NoDup_nth_error sizes) Hnd); [lia |].
      rewrite Hnth, En. reflexivity. }
    apply (step_not_fixed (Z.of_nat (length sizes)) i (is_reversed binding));
      lia. }
  exists (Z.to_nat i), nearest, requested.
  rewrite Z2Nat.id by lia.
  repeat split; try assumption.
  intros Hin Heq. apply In_nth_error in Hin as [k Hk].
  pose proof (findNearest_exact outerRect sizes k Hnd Hk) as Hexact.
  rewrite Hi in Hexact. injection Hexact as Ei.
  rewrite Ei, Nat2Z.id in En.
  assert (E2 : Some nearest = Some (width outerRect, height outerRect))
    by (transitivity (nth_error sizes k); [symmetry; exact En | exact Hk]).
  injection E2 as E2. apply Hdiff. rewrite Heq, E2. reflexivity.
Qed.

Lemma cycle_changes_size_witness :
  NoDup (scaledSizes this 1 workArea_2000_1200)
  /\ (2 <= length (scaledSizes this 1 workArea_2000_1200))%nat
  /\ exists (i : nat) (nearest requested : Size),
       nearestIndex (findNearest (mkRect 10 10 1440 900)
                                 (scaledSizes this 1 workArea_2000_1200))
       = Some (Z.of_nat i)
       /\ nth_error (scaledSizes this 1 workArea_2000_1200) i = Some nearest
       /\ requestedSize
            (_cycleWindowSizes this 1
               (windowAt 0 workArea_2000_1200 (mkRect 10 10 1440 900)) forward)
          = Some requested
       /\ requested <> nearest
       /\ (In (1440, 900) (scaledSizes this 1 workArea_2000_1200) ->
           requested <> (1440, 900)).
Proof.
  assert (Hnd : NoDup (scaledSizes this 1 workArea_2000_1200)).
  { repeat constructor; simpl; intuition discriminate. }
  assert (Hlen : (2 <= length (scaledSizes this 1 workArea_2000_1200))%nat)
    by (simpl; lia).
  split; [exact Hnd |]. split; [exact Hlen |].
  exact (cycle_changes_size this 1
           (windowAt 0 workArea_2000_1200 (mkRect 10 10 1440 900)) forward
           Hnd Hlen).
Defined.

(** ** Repeated key presses *)

Section Presses.

Variables (self : Extension) (scale_factor : Z) (binding : KeyBinding).

Variable ws : nat -> Window.

Let workArea := get_work_area_current_monitor (ws 0).
Let sizes := scaledSizes self scale_factor workArea.
Let n := Z.of_nat (length sizes).
Let b := is_reversed binding.

Hypothesis some_fit : sizes <> [].
Hypothesis distinct : NoDup sizes.

Lemma presses_anchor (i0 : Z) (k : nat) :
  nearestIndex (findNearest (get_frame_rect (ws 0)) sizes) = Some i0 ->
  0 <= i0 < n ->
  granted self scale_factor binding ws k ->
  get_work_area_current_monitor (ws k) = workArea
  /\ nearestIndex (findNearest (get_frame_rect (ws k)) sizes)
     = Some ((i0 + Z.of_nat k * step b) mod n).
Proof.
  intros H0 Hr0. induction k as [| k IH]; intros Hg.
  - split; [reflexivity |].
    rewrite H0. f_equal. simpl. rewrite Z.add_0_r.
    symmetry. apply Z.mod_small. exact Hr0.
  - assert (Hgk : granted self scale_factor binding ws k) by (intros t Ht; apply Hg; lia).
    destruct (IH Hgk) as [Hwa Hnear].
    destruct (Hg k ltac:(lia)) as [Hwa' Hsize].
    split; [exact Hwa' |].
    assert (Hne : scaledSizes self scale_factor
                    (get_work_area_current_monitor (ws k)) <> [])
      by (rewrite Hwa; exact some_fit).
    destruct (cycle_requestedSize self scale_factor (ws k) binding Hne)
      as (j & size & Hj & Hrj & Hnth & Hreq).
    rewrite Hwa in Hj, Hrj, Hnth. fold sizes in Hj, Hrj, Hnth.
    fold n in Hrj, Hnth. fold b in Hnth.
    rewrite Hnear in Hj. injection Hj as <-.
    rewrite Hreq in Hsize. injection Hsize as ->.
    rewrite Z.add_mod_idemp_l in Hnth by lia.
    replace (i0 + Z.of_nat k * step b + step b)
      with (i0 + Z.of_nat (S k) * step b) in Hnth by lia.
    assert (Hk : 0 <= (i0 + Z.of_nat (S k) * step b) mod n < n)
      by (apply Z.mod_pos_bound; lia).
    rewrite <- (Z2Nat.id ((i0 + Z.of_nat (S k) * step b) mod n)) at 1 by lia.
    apply findNearest_exact; [exact distinct | exact Hnth].
Qed.

End Presses.

(** X5.  Over a run of key presses in one direction on a work area with
    pairwise distinct candidates, where the host gives the window the size
    each press requested, press number k+1 requests the candidate k+1 steps
    from the candidate nearest to the starting size, counted cyclically; so
    every n-th press, n being the number of candidates, requests that
    starting candidate again. *)
Theorem presses_advance_cyclically (self : Extension) (scale_factor : Z)
    (binding : KeyBinding) (ws : nat -> Window) (k : nat) :
  let sizes :=
    scaledSizes self scale_factor (get_work_area_current_monitor (ws 0%nat)) in
  let n := Z.of_nat (length sizes) in
  sizes <> [] ->
  NoDup sizes ->
  granted self scale_factor binding ws k ->
  exists i0 : Z,
    nearestIndex (findNearest (get_frame_rect (ws 0%nat)) sizes) = Some i0
    /\ 0 <= i0 < n
    /\ requestedSize (_cycleWindowSizes self scale_factor (ws k) binding)
       = nth_error sizes
           (Z.to_nat ((i0 + (Z.of_nat k + 1) * step (is_reversed binding))
                      mod n))
    /\ ((Z.of_nat k + 1) mod n = 0 ->
        requestedSize (_cycleWindowSizes self scale_factor (ws k) binding)
        = nth_error sizes (Z.to_nat i0)).
Proof.
  intros sizes n Hne Hnd Hg.
  destruct (findNearest_in_range (get_frame_rect (ws 0%nat)) sizes Hne)
    as (i0 & H0 & Hr0).
  fold n in Hr0.
  destruct (presses_anchor self scale_factor binding ws Hne Hnd i0 k H0 Hr0 Hg)
    as [Hwa Hnear].
  assert (Hne' : scaledSizes self scale_factor
                   (get_work_area_current_monitor (ws k)) <> [])
    by (rewrite Hwa; exact Hne).
  destruct (cycle_requestedSize self scale_factor (ws k) binding Hne')
    as (j & size & Hj & Hrj & Hnth & Hreq).
  rewrite Hwa in Hj, Hrj, Hnth. fold sizes in Hj, Hrj, Hnth, Hnear.
  fold n in Hrj, Hnth, Hnear.
  rewrite Hnear in Hj. injection Hj as <-.
  rewrite Z.add_mod_idemp_l in Hnth by lia.
  replace (i0 + Z.of_nat k * step (is_reversed binding)
           + step (is_reversed binding))
    with (i0 + (Z.of_nat k + 1) * step (is_reversed binding)) in Hnth by lia.
  exists i0. split; [exact H0 |]. split; [exact Hr0 |]. split.
  - rewrite Hreq, Hnth. reflexivity.
  - intros Hfull. rewrite Hreq, <- Hnth. do 2 f_equal.
    rewrite <- Z.add_mod_idemp_r by lia.
    rewrite <- Z.mul_mod_idemp_l by lia.
    rewrite Hfull. simpl. rewrite Z.mod_0_l by lia.
    rewrite Z.add_0_r. apply Z.mod_small. exact Hr0.
Qed.

Lemma presses_advance_cyclically_witness :
  scaledSizes this 1 workArea_2000_1200 <> []
  /\ NoDup (scaledSizes this 1 workArea_2000_1200)
  /\ granted this 1 forward fourPresses 3
  /\ requestedSize (_cycleWindowSizes this 1 (fourPresses 3) forward)
     = Some (1280, 720).
Proof.
  assert (Hnd : NoDup (scaledSizes this 1 workArea_2000_1200)).
  { repeat constructor; simpl; intuition discriminate. }
  assert (Hg : granted this 1 forward fourPresses 3).
  { intros t Ht.
    destruct t as [| [| [| t]]]; [split; reflexivity .. | lia]. }
  split; [discriminate |]. split; [exact Hnd |]. split; [exact Hg |].
  destruct (presses_advance_cyclically this 1 forward fourPresses 3
              ltac:(discriminate) Hnd Hg) as (i0 & H0 & _ & _ & Hfull).
  injection H0 as <-. exact (Hfull eq_refl).
Defined.

(** ** Centring inside the work area *)

Lemma half_inside (lo extent size : Z) :
  size <= extent
  <-> (inject_Z lo <= inject_Z lo + inject_Z (extent - size) / inject_Z 2
       /\ inject_Z lo + inject_Z (extent - size) / inject_Z 2 + inject_Z size
          <= inject_Z (lo + extent))%Q.
Proof.
  unfold Qle, Qplus, Qdiv, Qmult, Qinv, inject_Z. cbn [Qnum Qden].
  cbn [Qnum Qden Z.mul Pos.mul]. lia.
Qed.

Lemma half_overhang (lo extent size : Z) :
  extent < size ->
  (inject_Z lo + inject_Z (extent - size) / inject_Z 2 < inject_Z lo
   /\ inject_Z (lo + extent)
      < inject_Z lo + inject_Z (extent - size) / inject_Z 2 + inject_Z size)%Q.
Proof.
  unfold Qlt, Qplus, Qdiv, Qmult, Qinv, inject_Z. cbn [Qnum Qden].
  cbn [Qnum Qden Z.mul Pos.mul]. lia.
Qed.

(** X6.  The frame the centre handler requests lies inside the work area on
    an axis exactly when the window is no larger than the work area on that
    axis; a larger window overhangs the work area on both sides. *)
Theorem center_inside_iff_fits (window : Window) :
  let workArea := get_work_area_current_monitor window in
  let outerRect := get_frame_rect window in
  exists newX newY : Q,
    _centerWindow window
    = (unmaximizeFirst window
       ++ [connect_size_changed;
           move_resize_frame true newX newY
                             (width outerRect) (height outerRect)],
       inr tt)
    /\ (width outerRect <= width workArea
        <-> (inject_Z (x workArea) <= newX
             /\ newX + inject_Z (width outerRect)
                <= inject_Z (x workArea + width workArea))%Q)
    /\ (height outerRect <= height workArea
        <-> (inject_Z (y workArea) <= newY
             /\ newY + inject_Z (height outerRect)
                <= inject_Z (y workArea + height workArea))%Q)
    /\ (width workArea < width outerRect ->
        (newX < inject_Z (x workArea)
         /\ inject_Z (x workArea + width workArea)
            < newX + inject_Z (width outerRect))%Q)
    /\ (height workArea < height outerRect ->
        (newY < inject_Z (y workArea)
         /\ inject_Z (y workArea + height workArea)
            < newY + inject_Z (height outerRect))%Q).
Proof.
  intros workArea outerRect. eexists _, _. split; [| split; [| split; [| split]]].
  - unfold _centerWindow, unmaximizeFirst, call, ret, bind.
    fold workArea outerRect.
    destruct (get_maximized window =? 0); reflexivity.
  - apply half_inside.
  - apply half_inside.
  - apply half_overhang.
  - apply half_overhang.
Qed.

Lemma center_inside_iff_fits_witness :
  exists newX newY : Q,
    calls (_centerWindow
             (windowAt BOTH (mkRect 0 32 1000 800) (mkRect 5 5 1400 600)))
    = [unmaximize BOTH; connect_size_changed;
       move_resize_frame true newX newY 1400 600]
    /\ (newX < inject_Z 0 /\ inject_Z (0 + 1000) < newX + inject_Z 1400)%Q
    /\ (inject_Z 32 <= newY /\ newY + inject_Z 600 <= inject_Z (32 + 800))%Q.
Proof.
  destruct (center_inside_iff_fits
              (windowAt BOTH (mkRect 0 32 1000 800) (mkRect 5 5 1400 600)))
    as (newX & newY & Hrun & _ & Hy & Hx & _).
  exists newX, newY. split; [rewrite Hrun; reflexivity |].
  split; [apply Hx; reflexivity | apply Hy; discriminate].
Defined.

(** ** The message label *)

Section LabelRuns.

Variable stage : Stage.

Lemma countCalls_app (p : UICall -> bool) (cs cs' : list UICall) :
  countCalls p (cs ++ cs') = countCalls p cs + countCalls p cs'.
Proof.
  unfold countCalls. rewrite filter_app, length_app. lia.
Qed.

Lemma runUI_flash (message : list Piece) (rest : list UIOp)
    (_text : option Label) :
  runUI stage (Flash message :: rest) _text
  = (fst (_flashMessage stage _text message)
     ++ fst (runUI stage rest (Some {| text := message; opacity := 255 |})),
     snd (runUI stage rest (Some {| text := message; opacity := 255 |}))).
Proof.
  simpl.
  destruct (runUI stage rest (Some {| text := message; opacity := 255 |}));
    reflexivity.
Qed.

Lemma runUI_fade_live (l : Label) (rest : list UIOp) :
  runUI stage (FadeComplete :: rest) (Some l)
  = (destroy :: fst (runUI stage rest None), snd (runUI stage rest None)).
Proof.
  simpl. destruct (runUI stage rest None); reflexivity.
Qed.

Lemma runUI_fade_absent (rest : list UIOp) :
  runUI stage (FadeComplete :: rest) None = ([], inl JS.TypeError).
Proof. reflexivity. Qed.

Lemma flash_counts (_text : option Label) (message : list Piece) :
  let cs := fst (_flashMessage stage _text message) in
  countCalls isNew cs = 1 - Z.b2z (isLive _text)
  /\ countCalls isAdd cs = 1 - Z.b2z (isLive _text)
  /\ countCalls isDestroy cs = 0.
Proof.
  destruct _text; repeat split.
Qed.

(** X7.  Over any history of flashes and completed fades, from any state,
    the labels created plus the label held at the start equal the labels
    destroyed plus the label held at the end (none is held after a throw):
    at most one label is alive, no label is destroyed twice, and every label
    created is added to the UI group. *)
Theorem label_accounting (ops : list UIOp) (_text : option Label) :
  countCalls isNew (fst (runUI stage ops _text)) + Z.b2z (isLive _text)
  = countCalls isDestroy (fst (runUI stage ops _text))
    + Z.b2z (isLive (finalLabel (snd (runUI stage ops _text))))
  /\ countCalls isAdd (fst (runUI stage ops _text))
     = countCalls isNew (fst (runUI stage ops _text)).
Proof.
  revert _text. induction ops as [| op rest IH]; intros _text.
  - simpl. split; [lia | reflexivity].
  - destruct op as [message |].
    + rewrite runUI_flash. cbn [fst snd].
      rewrite !countCalls_app.
      destruct (flash_counts _text message) as (Hn & Ha & Hd).
      cbv zeta in Hn, Ha, Hd. rewrite Hn, Ha, Hd.
      destruct (IH (Some {| text := message; opacity := 255 |})) as [H1 H2].
      cbn [isLive Z.b2z] in H1. lia.
    + destruct _text as [l |].
      * rewrite runUI_fade_live. cbn [fst snd].
        change (destroy :: fst (runUI stage rest None))
          with ([destroy] ++ fst (runUI stage rest None)).
        rewrite !countCalls_app.
        destruct (IH None) as [H1 H2]. cbn [isLive Z.b2z] in H1 |- *.
        change (countCalls isNew [destroy]) with 0.
        change (countCalls isAdd [destroy]) with 0.
        change (countCalls isDestroy [destroy]) with 1. lia.
      * rewrite runUI_fade_absent. split; reflexivity.
Qed.

(** X8.  A history runs without throwing exactly when every completed fade
    finds a label to hide, that is, when each one follows a flash with no
    other completed fade in between (or, for the first, a label held at the
    start). *)
Theorem run_succeeds_iff_fades_have_label (ops : list UIOp)
    (_text : option Label) :
  (exists final, snd (runUI stage ops _text) = inr final)
  <-> fadesHaveLabel (isLive _text) ops = true.
Proof.
  revert _text. induction ops as [| op rest IH]; intros _text.
  - simpl. split; [reflexivity | intros _; eexists; reflexivity].
  - destruct op as [message |].
    + rewrite runUI_flash. cbn [snd fadesHaveLabel].
      apply (IH (Some {| text := message; opacity := 255 |})).
    + destruct _text as [l |].
      * rewrite runUI_fade_live. cbn [snd fadesHaveLabel isLive andb].
        apply (IH None).
      * rewrite runUI_fade_absent. cbn [snd fadesHaveLabel isLive andb].
        split; [intros [final H]; discriminate | discriminate].
Qed.

Lemma runUI_app (ops ops' : list UIOp) (_text final : option Label) :
  snd (runUI stage ops _text) = inr final ->
  runUI stage (ops ++ ops') _text
  = (fst (runUI stage ops _text) ++ fst (runUI stage ops' final),
     snd (runUI stage ops' final)).
Proof.
  revert _text. induction ops as [| op rest IH]; intros _text Hrun.
  - simpl in Hrun. injection Hrun as <-. simpl.
    destruct (runUI stage ops' _text); reflexivity.
  - destruct op as [message |].
    + rewrite runUI_flash in Hrun. cbn [snd] in Hrun.
      change ((Flash message :: rest) ++ ops')
        with (Flash message :: (rest ++ ops')).
      rewrite !runUI_flash. rewrite (IH _ Hrun). cbn [fst snd].
      rewrite app_assoc. reflexivity.
    + destruct _text as [l |].
      * rewrite runUI_fade_live in Hrun. cbn [snd] in Hrun.
        change ((FadeComplete :: rest) ++ ops')
          with (FadeComplete :: (rest ++ ops')).
        rewrite !runUI_fade_live. rewrite (IH _ Hrun). reflexivity.
      * rewrite runUI_fade_absent in Hrun. discriminate.
Qed.

(** X9.  After any history that did not throw, flashing a message leaves a
    label that shows exactly that message at full opacity, whatever was
    shown before, with a fresh fade of 2000 ms to opacity 0 as the last
    call; a new label is created for it only if none was held. *)
Theorem last_message_wins (ops : list UIOp) (_text final : option Label)
    (message : list Piece) :
  snd (runUI stage ops _text) = inr final ->
  snd (runUI stage (ops ++ [Flash message]) _text)
  = inr (Some {| text := message; opacity := 255 |})
  /\ last (fst (runUI stage (ops ++ [Flash message]) _text)) destroy
     = ease 0 2000
  /\ countCalls isNew (fst (runUI stage (ops ++ [Flash message]) _text))
     = countCalls isNew (fst (runUI stage ops _text))
       + 1 - Z.b2z (isLive final).
Proof.
  intros Hrun.
  rewrite (runUI_app ops [Flash message] _text final Hrun).
  rewrite runUI_flash. cbn [fst snd runUI]. rewrite app_nil_r.
  split; [reflexivity |]. split.
  - unfold _flashMessage. cbn [fst]. rewrite !app_assoc.
    change ([remove_all_transitions;
             set_position
               (x (primaryMonitor stage)
                + Qfloor (inject_Z (width (primaryMonitor stage)) / 2
                          - label_width stage message / 2)%Q)
               (y (primaryMonitor stage)
                + Qfloor (inject_Z (height (primaryMonitor stage)) / 2
                          - label_height stage message / 2)%Q);
             ease 0 MESSAGE_FADE_TIME])
      with ([remove_all_transitions]
            ++ [set_position
                  (x (primaryMonitor stage)
                   + Qfloor (inject_Z (width (primaryMonitor stage)) / 2
                             - label_width stage message / 2)%Q)
                  (y (primaryMonitor stage)
                   + Qfloor (inject_Z (height (primaryMonitor stage)) / 2
                             - label_height stage message / 2)%Q);
                ease 0 MESSAGE_FADE_TIME]).
    rewrite !app_assoc. rewrite last_two. reflexivity.
  - rewrite countCalls_app.
    destruct (flash_counts final message) as (Hn & _). cbv zeta in Hn.
    rewrite Hn. lia.
Qed.

End LabelRuns.

Lemma last_message_wins_witness :
  snd (runUI {| primaryMonitor := mkRect 0 0 1920 1080;
                label_width := fun _ => 201 # 2;
                label_height := fun _ => 30 # 1 |}
             [Flash []; FadeComplete; Flash []] None)
  = inr (Some {| text := []; opacity := 255 |})
  /\ snd (runUI {| primaryMonitor := mkRect 0 0 1920 1080;
                   label_width := fun _ => 201 # 2;
                   label_height := fun _ => 30 # 1 |}
                ([Flash []; FadeComplete; Flash []]
                 ++ [Flash (_notifySizeChange 1
                              (windowAt 0 workArea_2000_1200
                                        (frame 1600 894)))])
                None)
     = inr (Some {| text := _notifySizeChange 1
                              (windowAt 0 workArea_2000_1200 (frame 1600 894));
                    opacity := 255 |}).
Proof.
  split; [reflexivity |].
  exact (proj1 (last_message_wins
                  {| primaryMonitor := mkRect 0 0 1920 1080;
                     label_width := fun _ => 201 # 2;
                     label_height := fun _ => 30 # 1 |}
                  [Flash []; FadeComplete; Flash []] None
                  (Some {| text := []; opacity := 255 |})
                  (_notifySizeChange 1
                     (windowAt 0 workArea_2000_1200 (frame 1600 894)))
                  eq_refl)).
Defined.

Lemma floor_centred (lo extent : Z) (size : Q) :
  (inject_Z (lo + Qfloor (inject_Z extent / 2 - size / 2)) + size / 2
   <= inject_Z lo + inject_Z extent / 2
   /\ inject_Z lo + inject_Z extent / 2
      < inject_Z (lo + Qfloor (inject_Z extent / 2 - size / 2)) + size / 2 + 1)%Q.
Proof.
  pose proof (Qfloor_le (inject_Z extent / 2 - size / 2)) as Hle.
  pose proof (Qlt_floor (inject_Z extent / 2 - size / 2)) as Hlt.
  rewrite inject_Z_plus in Hlt. rewrite !inject_Z_plus.
  change (inject_Z 1) with 1%Q in Hlt.
  split; lra.
Qed.

(** X10.  The position [_flashMessage] gives the label centres it on the
    primary monitor to within one pixel on each axis: the centre of the
    label is at most the centre of the monitor and less than one pixel
    before it, for any monitor and any label size. *)
Theorem label_centred_within_a_pixel (stage : Stage) (_text : option Label)
    (message : list Piece) :
  let monitor := primaryMonitor stage in
  exists px py : Z,
    In (set_position px py) (fst (_flashMessage stage _text message))
    /\ (inject_Z px + label_width stage message / 2
        <= inject_Z (x monitor) + inject_Z (width monitor) / 2
        /\ inject_Z (x monitor) + inject_Z (width monitor) / 2
           < inject_Z px + label_width stage message / 2 + 1)%Q
    /\ (inject_Z py + label_height stage message / 2
        <= inject_Z (y monitor) + inject_Z (height monitor) / 2
        /\ inject_Z (y monitor) + inject_Z (height monitor) / 2
           < inject_Z py + label_height stage message / 2 + 1)%Q.
Proof.
  intros monitor. eexists _, _. split; [| split].
  - unfold _flashMessage. cbn [fst]. apply in_or_app. right.
    right. left. reflexivity.
  - apply floor_centred.
  - apply floor_centred.
Qed.

(** ** Key bindings *)

(** The or of line 174 is the 32-bit signed one. *)
Example bitwiseOr_is_32_bit :
  bitwiseOr 1 4 = 5
  /\ bitwiseOr (2 ^ 31) 4 = -2147483644
  /\ bitwiseOr 1 (2 ^ 32) = 1.
Proof. repeat split. Qed.

Lemma applyWM_other (r : Registry) (c : WMCall) (k : String.string) :
  (forall n f m h, c = addKeybinding n f m h -> k <> n) ->
  (forall n, c = removeKeybinding n -> k <> n) ->
  applyWM r c k = r k.
Proof.
  intros Hadd Hrem. destruct c as [n f m h | n]; simpl.
  - destruct (r n); [reflexivity |].
    destruct (String.eqb k n) eqn:E; [| reflexivity].
    apply String.eqb_eq in E. exfalso. exact (Hadd n f m h eq_refl E).
  - destruct (String.eqb k n) eqn:E; [| reflexivity].
    apply String.eqb_eq in E. exfalso. exact (Hrem n eq_refl E).
Qed.

Lemma applyWM_remove (r : Registry) (n : String.string) :
  applyWM r (removeKeybinding n) n = None.
Proof. simpl. rewrite String.eqb_refl. reflexivity. Qed.

Lemma applyWM_add_binds (r : Registry) (n : String.string) (f m : Z)
    (h : Handler) :
  applyWM r (addKeybinding n f m h) n <> None.
Proof.
  simpl. destruct (r n) eqn:E.
  - rewrite E. discriminate.
  - rewrite String.eqb_refl. discriminate.
Qed.

Lemma applyWM_add_free (r : Registry) (n : String.string) (f m : Z)
    (h : Handler) :
  r n = None ->
  applyWM r (addKeybinding n f m h) n
  = Some {| flags_ := f; modes_ := m; handler_ := h |}.
Proof.
  intros E. simpl. rewrite E, String.eqb_refl. reflexivity.
Qed.

Lemma applyWM_add_keeps (r : Registry) (n k : String.string) (f m : Z)
    (h : Handler) :
  r k <> None -> applyWM r (addKeybinding n f m h) k = r k.
Proof.
  intros Hk. simpl. destruct (r n) eqn:E; [reflexivity |].
  destruct (String.eqb k n) eqn:Ek; [| reflexivity].
  apply String.eqb_eq in Ek. subst k. contradiction.
Qed.

Lemma enable_binds (K : HostConsts) (r : Registry) (k : String.string) :
  In k ownNames ->
  runWM r (enable K) k <> None
  /\ (r k = None ->
      exists b, runWM r (enable K) k = Some b
                /\ handler_ b = ownHandler k /\ modes_ b = NORMAL K).
Proof.
  intros Hin. unfold runWM, enable. cbn [fold_left].
  set (c1 := addKeybinding "cycle-window-sizes"%string (PER_WINDOW K) (NORMAL K)
                           bound_cycleWindowSizes).
  set (c2 := addKeybinding "cycle-window-sizes-backward"%string
                           (bitwiseOr (PER_WINDOW K) (IS_REVERSED K))
                           (NORMAL K) bound_cycleWindowSizes).
  set (c3 := addKeybinding "center-window"%string (PER_WINDOW K) (NORMAL K)
                           bound_centerWindow).
  destruct Hin as [<- | [<- | [<- | []]]].
  - pose proof (applyWM_add_binds r "cycle-window-sizes"%string (PER_WINDOW K)
                  (NORMAL K) bound_cycleWindowSizes) as H1. fold c1 in H1.
    unfold c3. rewrite applyWM_add_keeps
      by (unfold c2; rewrite applyWM_add_keeps; exact H1).
    unfold c2. rewrite applyWM_add_keeps by exact H1.
    split; [exact H1 |]. intros Hfree. eexists. split.
    + unfold c1. apply applyWM_add_free. exact Hfree.
    + split; reflexivity.
  - assert (Hsame : applyWM r c1 "cycle-window-sizes-backward"%string
                    = r "cycle-window-sizes-backward"%string).
    { apply applyWM_other; [| intros n E; discriminate].
      intros n f m h E. injection E as <- _ _ _. discriminate. }
    pose proof (applyWM_add_binds (applyWM r c1) "cycle-window-sizes-backward"%string
                  (bitwiseOr (PER_WINDOW K) (IS_REVERSED K))
                  (NORMAL K) bound_cycleWindowSizes) as H2. fold c2 in H2.
    unfold c3. rewrite applyWM_add_keeps by exact H2.
    split; [exact H2 |]. intros Hfree. eexists. split.
    + unfold c2. apply applyWM_add_free. rewrite Hsame. exact Hfree.
    + split; reflexivity.
  - assert (Hsame : applyWM (applyWM r c1) c2 "center-window"%string
                    = r "center-window"%string).
    { rewrite applyWM_other.
      - apply applyWM_other; [| intros n E; discriminate].
        intros n f m h E. injection E as <- _ _ _. discriminate.
      - intros n f m h E. injection E as <- _ _ _. discriminate.
      - intros n E. discriminate. }
    split; [apply applyWM_add_binds |]. intros Hfree. eexists. split.
    + unfold c3. apply applyWM_add_free. rewrite Hsame. exact Hfree.
    + split; reflexivity.
Qed.

(** X11.  In the host's table of key bindings: after [enable] each of the
    three names of the extension is bound (to the cycle handler, or to the
    centre handler for 'center-window', in mode NORMAL, when the name was
    free before); after [disable] none of the three is bound; and neither
    [enable] nor [disable] changes the binding of any other name.  So on a
    table in which the three names are free, [disable] after [enable] gives
    back the table as it was: [disable] removes exactly the names [enable]
    adds. *)
Theorem disable_removes_what_enable_adds (K : HostConsts) (r : Registry)
    (k : String.string) :
  (In k ownNames -> runWM r (enable K) k <> None)
  /\ (In k ownNames -> r k = None ->
      exists b, runWM r (enable K) k = Some b
                /\ handler_ b = ownHandler k /\ modes_ b = NORMAL K)
  /\ (In k ownNames -> runWM (runWM r (enable K)) disable k = None)
  /\ (In k ownNames -> runWM r disable k = None)
  /\ (~ In k ownNames -> runWM r (enable K) k = r k)
  /\ (~ In k ownNames -> runWM r disable k = r k)
  /\ (~ In k ownNames -> runWM (runWM r (enable K)) disable k = r k)
  /\ ((forall n, In n ownNames -> r n = None) ->
      runWM (runWM r (enable K)) disable k = r k).
Proof.
  assert (Hdis : forall r0, In k ownNames -> runWM r0 disable k = None).
  { intros r0 Hin. unfold runWM, disable. cbn [fold_left].
    destruct Hin as [<- | [<- | [<- | []]]];
      cbn [applyWM]; rewrite ?String.eqb_refl; reflexivity. }
  assert (Hother : forall r0 cs,
             (forall c, In c cs ->
                        (forall n f m h, c = addKeybinding n f m h -> k <> n)
                        /\ (forall n, c = removeKeybinding n -> k <> n)) ->
             runWM r0 cs k = r0 k).
  { intros r0 cs. revert r0. induction cs as [| c cs IH]; intros r0 Hcs.
    - reflexivity.
    - unfold runWM. cbn [fold_left]. fold (runWM (applyWM r0 c) cs).
      rewrite IH by (intros c' Hc'; apply Hcs; right; exact Hc').
      destruct (Hcs c (or_introl eq_refl)) as [Ha Hr].
      apply applyWM_other; assumption. }
  assert (Hen : ~ In k ownNames ->
                forall c, In c (enable K) ->
                  (forall n f m h, c = addKeybinding n f m h -> k <> n)
                  /\ (forall n, c = removeKeybinding n -> k <> n)).
  { intros Hout c Hc. split.
    - intros n f m h -> ->. apply Hout.
      destruct Hc as [E | [E | [E | []]]]; injection E as <-; simpl; auto.
    - intros n ->. destruct Hc as [E | [E | [E | []]]]; discriminate. }
  assert (Hdi : ~ In k ownNames ->
                forall c, In c disable ->
                  (forall n f m h, c = addKeybinding n f m h -> k <> n)
                  /\ (forall n, c = removeKeybinding n -> k <> n)).
  { intros Hout c Hc. split.
    - intros n f m h ->. destruct Hc as [E | [E | [E | []]]]; discriminate.
    - intros n -> ->. apply Hout.
      destruct Hc as [E | [E | [E | []]]]; injection E as <-; simpl; auto. }
  assert (Hround : ~ In k ownNames ->
                   runWM (runWM r (enable K)) disable k = r k).
  { intros Hout. rewrite Hother by (apply Hdi; exact Hout).
    apply Hother. apply Hen. exact Hout. }
  split; [intros Hin; apply (enable_binds K r k Hin) |].
  split; [intros Hin; apply (enable_binds K r k Hin) |].
  split; [apply Hdis |]. split; [apply Hdis |]. split.
  - intros Hout. apply Hother. apply Hen. exact Hout.
  - split; [intros Hout; apply Hother; apply Hdi; exact Hout |].
    split; [exact Hround |].
    intros Hfree.
    destruct (in_dec String.string_dec k ownNames) as [Hin | Hout].
    + rewrite (Hdis _ Hin). symmetry. apply Hfree. exact Hin.
    + apply Hround. exact Hout.
Qed.

Lemma disable_removes_what_enable_adds_witness :
  In "cycle-window-sizes-backward"%string ownNames
  /\ (exists b,
        runWM (fun _ => None)
              (enable {| PER_WINDOW := 1; IS_REVERSED := 4; NORMAL := 1 |})
              "cycle-window-sizes-backward"%string
        = Some b
        /\ handler_ b = bound_cycleWindowSizes /\ modes_ b = 1)
  /\ runWM (runWM (fun _ => None)
                  (enable {| PER_WINDOW := 1; IS_REVERSED := 4; NORMAL := 1 |}))
           disable "cycle-window-sizes-backward"%string
     = None.
Proof.
  assert (Hin : In "cycle-window-sizes-backward"%string ownNames)
    by (right; left; reflexivity).
  destruct (disable_removes_what_enable_adds
              {| PER_WINDOW := 1; IS_REVERSED := 4; NORMAL := 1 |}
              (fun _ => None) "cycle-window-sizes-backward"%string)
    as (_ & Hbound & Hgone & _).
  split; [exact Hin |]. split; [exact (Hbound Hin eq_refl) | exact (Hgone Hin)].
Defined.

(** ** Candidates of a duplicate-free size list *)

Lemma scaled_injective (scaleFactor : Z) (a b : Size) :
  scaleFactor <> 0 ->
  (let '(w, h) := a in (w * scaleFactor, h * scaleFactor))
  = (let '(w, h) := b in (w * scaleFactor, h * scaleFactor)) ->
  a = b.
Proof.
  intros Hs. destruct a as [w h], b as [w' h']. intros E.
  injection E as Ew Eh.
  apply Z.mul_reg_r in Ew; [| exact Hs]. apply Z.mul_reg_r in Eh; [| exact Hs].
  congruence.
Qed.

(** X13.  When the configured sizes are pairwise distinct and the scale
    factor is not zero, the candidates are pairwise distinct, for every work
    area; this holds for the list of the source. *)
Theorem candidates_distinct (self : Extension) (scaleFactor : Z)
    (workArea : Rect) :
  NoDup (SIZES self) ->
  scaleFactor <> 0 ->
  NoDup (scaledSizes self scaleFactor workArea).
Proof.
  intros Hnd Hs. unfold scaledSizes. apply NoDup_filter.
  induction Hnd as [| a l Hnotin Hnd IH]; simpl.
  - constructor.
  - constructor; [| exact IH].
    intros Hin. apply in_map_iff in Hin as (b & Hb & Hbl).
    apply scaled_injective in Hb; [| exact Hs]. subst b. contradiction.
Qed.

Lemma SIZES_distinct : NoDup (SIZES this).
Proof. repeat constructor; simpl; intuition discriminate. Qed.

Lemma candidates_distinct_witness :
  NoDup (SIZES this)
  /\ 2 <> 0
  /\ NoDup (scaledSizes this 2 (mkRect 0 0 3000 1800)).
Proof.
  assert (Hnd : NoDup (SIZES this))
    by (repeat constructor; simpl; intuition discriminate).
  split; [exact Hnd |]. split; [discriminate |].
  exact (candidates_distinct this 2 (mkRect 0 0 3000 1800) Hnd
           ltac:(discriminate)).
Defined.

(** X14.  For a window whose size is the candidate at index i of pairwise
    distinct candidates, a forward press requests the candidate at index
    i+1 and a backward press the one at index i-1, wrapping around the ends
    of the list. *)
Theorem cycle_from_candidate (self : Extension) (scale_factor : Z)
    (window : Window) (binding : KeyBinding) (i : nat) :
  let outerRect := get_frame_rect window in
  let sizes :=
    scaledSizes self scale_factor (get_work_area_current_monitor window) in
  NoDup sizes ->
  nth_error sizes i = Some (width outerRect, height outerRect) ->
  exists requested : Size,
    requestedSize (_cycleWindowSizes self scale_factor window binding)
    = Some requested
    /\ nth_error sizes
         (Z.to_nat ((Z.of_nat i + step (is_reversed binding))
                    mod Z.of_nat (length sizes)))
       = Some requested.
Proof.
  intros outerRect sizes Hnd Hi.
  assert (Hne : sizes <> []) by (destruct sizes; [destruct i |]; discriminate).
  destruct (cycle_requestedSize self scale_factor window binding Hne)
    as (j & requested & Hj & _ & Hnth & Hreq).
  fold sizes outerRect in Hj, Hnth.
  rewrite (findNearest_exact outerRect sizes i Hnd Hi) in Hj.
  injection Hj as <-.
  exists requested. split; [exact Hreq | exact Hnth].
Qed.

Lemma cycle_from_candidate_witness :
  NoDup (scaledSizes this 1 workArea_2000_1200)
  /\ nth_error (scaledSizes this 1 workArea_2000_1200) 3 = Some (1600, 900)
  /\ exists requested : Size,
       requestedSize
         (_cycleWindowSizes this 1
            (windowAt 0 workArea_2000_1200 (mkRect 40 40 1600 900)) forward)
       = Some requested
       /\ nth_error (scaledSizes this 1 workArea_2000_1200)
            (Z.to_nat ((3 + 1) mod 4))
          = Some requested.
Proof.
  assert (Hnd : NoDup (scaledSizes this 1 workArea_2000_1200))
    by (repeat constructor; simpl; intuition discriminate).
  split; [exact Hnd |]. split; [reflexivity |].
  exact (cycle_from_candidate this 1
           (windowAt 0 workArea_2000_1200 (mkRect 40 40 1600 900)) forward 3%nat
           Hnd eq_refl).
Defined.

(** ** Windows of ratio 16:9 *)

(** X15.  For a window of ratio exactly 16:9 (9 * width = 16 * height) and
    a height from 1 to 4320, the notification carries no ratio suffix: the
    message is the size alone. *)
Theorem exact_16_9_has_no_suffix (scaleFactor : Z) (window : Window) :
  0 < height (get_frame_rect window) <= 4320 ->
  9 * width (get_frame_rect window) = 16 * height (get_frame_rect window) ->
  _notifySizeChange scaleFactor window
  = [size_d_x_d
       (Number (width (get_frame_rect window)) / Number scaleFactor)%float
       (Number (height (get_frame_rect window)) / Number scaleFactor)%float].
Proof.
  intros Hh Hratio. rewrite notifySizeChange_message.
  assert (Hq : (Qabs (9 * inject_Z (width (get_frame_rect window))
                      / inject_Z (height (get_frame_rect window)) - 16)
                < 1 # 100)%Q).
  { apply spec_within_tolerance; lia. }
  pose proof (within_tolerance_no_suffix _ _ Hh Hq) as Hquiet.
  unfold ratioDiffers, actualNumerator in *. cbn [width height frame] in Hquiet.
  rewrite Hquiet. reflexivity.
Qed.

Lemma exact_16_9_has_no_suffix_witness :
  0 < 2160 <= 4320
  /\ 9 * 3840 = 16 * 2160
  /\ _notifySizeChange 2 (windowAt 0 (mkRect 0 0 3840 2160) (frame 3840 2160))
     = [size_d_x_d (Number 3840 / Number 2)%float
                   (Number 2160 / Number 2)%float].
Proof.
  assert (Hh : 0 < 2160 <= 4320) by lia.
  split; [exact Hh |]. split; [reflexivity |].
  exact (exact_16_9_has_no_suffix 2
           (windowAt 0 (mkRect 0 0 3840 2160) (frame 3840 2160)) Hh eq_refl).
Defined.
